(** * stereoscope: squashed image trees and lazily opened file contents

    A verification development for the content helpers of package [image]
    and the deferred partial reader of package [file], together with the
    layer squashing that the integration tests exercise. *)

From stdpp Require Import gmap strings list fin_maps.
From Stdlib Require Import ZArith Lia.
From Stdlib.Strings Require Import Byte.

Local Open Scope Z_scope.

(** ** The Go runtime pieces the readers are written against

    [os.File], [io.LimitedReader] and [errors.Is], as state passing over a
    [World] that holds the disk, the table of [os.File] objects and the
    log of system calls issued so far. *)
Module GoRuntime.

(** Error numbers that can sit inside an [os.PathError]. *)
Inductive errno := ErrClosed | ENOENT | EINVAL | EIO.

(** The Go [error] values that occur in the program; a nil error is [None]
    at type [option error].  [Errorf] is the value of [fmt.Errorf] with its
    message formatted; [ErrUnregistered] is the catalog's complaint about a
    reference nobody added. *)
Inductive error :=
| io_EOF
| os_ErrInvalid
| PathError (op : string) (path : string) (e : errno)
| Errorf (msg : string)
| ErrUnregistered (layer : nat) (real_path : string).

#[global] Instance errno_eq_dec : EqDecision errno.
Proof. solve_decision. Defined.
#[global] Instance error_eq_dec : EqDecision error.
Proof. solve_decision. Defined.

(** [errors.Is(err, io.EOF)] *)
Definition errors_Is_EOF (err : option error) : bool :=
  match err with
  | Some io_EOF => true
  | _ => false
  end.

(** [errors.Is(err, os.ErrClosed)]: a [PathError] unwraps to its [Err]. *)
Definition errors_Is_ErrClosed (err : option error) : bool :=
  match err with
  | Some (PathError _ _ ErrClosed) => true
  | _ => false
  end.

(** What the operating system does to one system call: nothing special,
    a failure, or (for a read) a transfer cut short to [k] bytes. *)
Inductive fault := NoFault | IOError | Short (k : Z).

Inductive event :=
| EvOpen (path : string)
| EvSeek (fd : nat) (offset : Z)
| EvRead (fd : nat) (len : Z)
| EvClose (fd : nat).

(** One [os.File] object. *)
Record osFile := mkFile {
  f_name : string;
  f_data : list byte;
  f_off : Z;
  f_closed : bool
}.

Record World := mkWorld {
  disk : gmap string (list byte);
  files : list osFile;
  log : list event;
  faults : nat → fault
}.

Definition emit (e : event) (w : World) : World :=
  mkWorld (disk w) (files w) (log w ++ [e]) (faults w).

Definition set_file (fd : nat) (f : osFile) (w : World) : World :=
  mkWorld (disk w) (<[fd := f]> (files w)) (log w) (faults w).

Definition next_fault (w : World) : fault := faults w (length (log w)).

(** [os.Open(path)]: a fresh [os.File] (its index in [files]) or an error. *)
Definition os_Open (path : string) (w : World) : (nat + error) * World :=
  let w1 := emit (EvOpen path) w in
  match next_fault w with
  | IOError => (inr (PathError "open" path EIO), w1)
  | _ =>
    match disk w !! path with
    | None => (inr (PathError "open" path ENOENT), w1)
    | Some bs =>
      let fd := length (files w) in
      (inl fd,
       mkWorld (disk w1) (files w1 ++ [mkFile path bs 0 false]) (log w1) (faults w1))
    end
  end.

(** [f.Seek(offset, io.SeekStart)] *)
Definition File_Seek (fd : nat) (offset : Z) (w : World) : option error * World :=
  match files w !! fd with
  | None => (Some os_ErrInvalid, w)
  | Some f =>
    if f_closed f then (Some (PathError "seek" (f_name f) ErrClosed), w)
    else
      let w1 := emit (EvSeek fd offset) w in
      match next_fault w with
      | IOError => (Some (PathError "seek" (f_name f) EIO), w1)
      | _ =>
        if offset <? 0 then (Some (PathError "seek" (f_name f) EINVAL), w1)
        else (None, set_file fd (mkFile (f_name f) (f_data f) offset false) w1)
      end
  end.

(** How many bytes a read of [len > 0] bytes transfers when [avail > 0]
    bytes are left: all it can, unless the system cuts it short; never
    fewer than one. *)
Definition transfer (ft : fault) (len avail : Z) : Z :=
  let full := Z.min len avail in
  match ft with
  | Short k => Z.max 1 (Z.min k full)
  | _ => full
  end.

(** [f.Read(b)] with [len(b) = len]: the bytes stored into [b] and the error. *)
Definition File_Read (fd : nat) (len : Z) (w : World)
  : (list byte * option error) * World :=
  match files w !! fd with
  | None => (([], Some os_ErrInvalid), w)
  | Some f =>
    if f_closed f then (([], Some (PathError "read" (f_name f) ErrClosed)), w)
    else if len <=? 0 then (([], None), w)
    else
      let w1 := emit (EvRead fd len) w in
      match next_fault w with
      | IOError => (([], Some (PathError "read" (f_name f) EIO)), w1)
      | ft =>
        let avail := Z.of_nat (length (f_data f)) - f_off f in
        if avail <=? 0 then (([], Some io_EOF), w1)
        else
          let n := transfer ft len avail in
          let bs := take (Z.to_nat n) (drop (Z.to_nat (f_off f)) (f_data f)) in
          ((bs, None),
           set_file fd (mkFile (f_name f) (f_data f) (f_off f + n) false) w1)
      end
  end.

(** [f.Close()]; a nil receiver answers [os.ErrInvalid]. *)
Definition File_Close (fp : option nat) (w : World) : option error * World :=
  match fp with
  | None => (Some os_ErrInvalid, w)
  | Some fd =>
    match files w !! fd with
    | None => (Some os_ErrInvalid, w)
    | Some f =>
      if f_closed f then (Some (PathError "close" (f_name f) ErrClosed), w)
      else
        let w1 :=
          set_file fd (mkFile (f_name f) (f_data f) (f_off f) true)
                   (emit (EvClose fd) w) in
        match next_fault w with
        | IOError => (Some (PathError "close" (f_name f) EIO), w1)
        | _ => (None, w1)
        end
    end
  end.

(** [io.LimitedReader] over an [os.File]. *)
Record LimitedReader := mkLimited { lr_R : nat; lr_N : Z }.

(** The [Read] method of [LimitedReader]. *)
Definition LimitedReader_Read (l : LimitedReader) (len : Z) (w : World)
  : (list byte * option error) * LimitedReader * World :=
  if lr_N l <=? 0 then (([], Some io_EOF), l, w)
  else
    let len' := if lr_N l <? len then lr_N l else len in
    let '((bs, err), w1) := File_Read (lr_R l) len' w in
    ((bs, err), mkLimited (lr_R l) (lr_N l - Z.of_nat (length bs)), w1).

End GoRuntime.

(** ** Package [file]: the deferred partial read closer
    (pkg/file/deferred_partial_read_closer.go) *)
Module FilePkg.
Import GoRuntime.

Record deferredPartialReadCloser := mkDeferred {
  path : string;
  file : option nat;
  reader : option LimitedReader;
  start : Z;
  size : Z
}.

Definition newDeferredPartialReadCloser (path : string) (start size : Z)
  : deferredPartialReadCloser :=
  mkDeferred path None None start size.

(** The first block of [Read]: when no reader is installed yet, open the
    path, seek to [start] and wrap the file in a limited reader.  Either
    step failing leaves the receiver untouched and returns the error. *)
Definition open_on_demand (d : deferredPartialReadCloser) (w : World)
  : (error + (deferredPartialReadCloser * LimitedReader)) * World :=
  match reader d with
  | Some l => (inr (d, l), w)
  | None =>
    let '(r, w1) := os_Open (path d) w in
    match r with
    | inr err => (inl err, w1)
    | inl f =>
      let '(serr, w2) := File_Seek f (start d) w1 in
      match serr with
      | Some err => (inl err, w2)
      | None =>
        let l := mkLimited f (size d) in
        (inr (mkDeferred (path d) (Some f) (Some l) (start d) (size d), l), w2)
      end
    end
  end.

(** The second block of [Read]: read through the limited reader and, at
    end of file, close the descriptor; the close error replaces the end of
    file unless it says the file was closed already. *)
Definition read_and_release (d : deferredPartialReadCloser) (l : LimitedReader)
    (len : Z) (w : World)
  : (list byte * option error) * deferredPartialReadCloser * World :=
  let '((bs, err), l1, w1) := LimitedReader_Read l len w in
  let d1 := mkDeferred (path d) (file d) (Some l1) (start d) (size d) in
  if errors_Is_EOF err then
    let '(closeErr, w2) := File_Close (file d) w1 in
    if negb (errors_Is_ErrClosed closeErr) then ((bs, closeErr), d1, w2)
    else ((bs, err), d1, w2)
  else ((bs, err), d1, w1).

(** [Read(b)] with [len(b) = len]; the result carries the bytes stored
    into [b] (their number is the returned [n]) and the error. *)
Definition Read (d : deferredPartialReadCloser) (len : Z) (w : World)
  : (list byte * option error) * deferredPartialReadCloser * World :=
  match open_on_demand d w with
  | (inl err, w1) => (([], Some err), d, w1)
  | (inr (d1, l), w1) => read_and_release d1 l len w1
  end.

Definition Close (d : deferredPartialReadCloser) (w : World)
  : option error * deferredPartialReadCloser * World :=
  match file d with
  | None => (None, d, w)
  | Some f =>
    let '(err, w1) := File_Close (Some f) w in
    let err := if errors_Is_ErrClosed err then None else err in
    (err, mkDeferred (path d) None None (start d) (size d), w1)
  end.

(** A run of [Read] calls with the given buffer lengths, one after the
    other whatever each returns; the results come back in call order. *)
Fixpoint reads (bufs : list Z) (d : deferredPartialReadCloser) (w : World)
  : list (list byte * option error) * deferredPartialReadCloser * World :=
  match bufs with
  | [] => ([], d, w)
  | len :: rest =>
    let '(r, d1, w1) := Read d len w in
    let '(rs, d2, w2) := reads rest d1 w1 in
    (r :: rs, d2, w2)
  end.

(** Bytes handed out by the calls that returned a nil error, and by all. *)
Definition bytes_ok (rs : list (list byte * option error)) : Z :=
  foldr (λ r acc, match r.2 with None => Z.of_nat (length r.1) + acc | Some _ => acc end) 0 rs.

Definition bytes_all (rs : list (list byte * option error)) : Z :=
  foldr (λ r acc, Z.of_nat (length r.1) + acc) 0 rs.

(** A history of calls on one reader. *)
Inductive call := CallRead (len : Z) | CallClose.

Definition do_call (c : call) (d : deferredPartialReadCloser) (w : World)
  : deferredPartialReadCloser * World :=
  match c with
  | CallRead len => let '(_, d1, w1) := Read d len w in (d1, w1)
  | CallClose => let '(_, d1, w1) := Close d w in (d1, w1)
  end.

Definition history (cs : list call) (d : deferredPartialReadCloser) (w : World)
  : deferredPartialReadCloser * World :=
  foldl (λ st c, do_call c st.1 st.2) (d, w) cs.

(** Operations of a client that owns a pool of readers. *)
Inductive pool_op :=
| OpNew (path : string) (start size : Z)
| OpRead (i : nat) (len : Z)
| OpClose (i : nat).

Definition is_read (o : pool_op) : bool :=
  match o with OpRead _ _ => true | _ => false end.

Definition pool_step (st : list deferredPartialReadCloser * World) (o : pool_op)
  : list deferredPartialReadCloser * World :=
  let '(pool, w) := st in
  match o with
  | OpNew p s z => (pool ++ [newDeferredPartialReadCloser p s z], w)
  | OpRead i len =>
    match pool !! i with
    | None => st
    | Some d => let '(_, d1, w1) := Read d len w in (<[i := d1]> pool, w1)
    end
  | OpClose i =>
    match pool !! i with
    | None => st
    | Some d => let '(_, d1, w1) := Close d w in (<[i := d1]> pool, w1)
    end
  end.

Definition pool_run (ops : list pool_op) (st : list deferredPartialReadCloser * World)
  : list deferredPartialReadCloser * World :=
  foldl pool_step st ops.

(** The open and seek calls in a log. *)
Definition is_open_or_seek (e : event) : bool :=
  match e with EvOpen _ | EvSeek _ _ => true | _ => false end.

Definition opens_and_seeks (l : list event) : list event :=
  List.filter is_open_or_seek l.

(** A stretch of log with no open and no seek in it. *)
Definition quiet (evs : list event) : Prop := opens_and_seeks evs = [].

(** What a reader may still hand out: the count left in its limited
    reader, or its whole size while nothing is installed. *)
Definition budget (d : deferredPartialReadCloser) : Z :=
  Z.max 0 (match reader d with Some l => lr_N l | None => size d end).

(** The bytes of a file of length [len] that lie in the range of [d]. *)
Definition in_range (d : deferredPartialReadCloser) (len : Z) : Z :=
  Z.min (size d) (Z.max 0 (len - start d)).

(** The system never fails a call of this world (it may cut reads short). *)
Definition no_io_error (w : World) : Prop := ∀ i, faults w i ≠ IOError.

(** The reader is installed over a file holding [data] and has handed out
    [k] bytes of its range: the file stands [k] bytes past [start], or has
    been closed with the range used up. *)
Definition streaming (data : list byte) (d : deferredPartialReadCloser)
    (w : World) (k : Z) : Prop :=
  ∃ fd f, file d = Some fd ∧ reader d = Some (mkLimited fd (size d - k)) ∧
    files w !! fd = Some f ∧ f_data f = data ∧
    0 ≤ k ≤ in_range d (Z.of_nat (length data)) ∧
    (if f_closed f then k = in_range d (Z.of_nat (length data))
     else f_off f = start d + k).


(** Modelled from the spec: the declaration of [file.Reference] is not
    among the sources; the spec gives a file reference as the owning
    layer's identity with the resolved real path. *)
Record Reference := mkReference { ref_layer : nat; RealPath : string }.

#[global] Instance Reference_eq_dec : EqDecision Reference.
Proof. solve_decision. Defined.

#[global] Instance Reference_countable : Countable Reference.
Proof.
  refine (inj_countable' (λ r, (ref_layer r, RealPath r))
                         (λ p, mkReference p.1 p.2) _).
  by intros [].
Defined.

(** All the bytes a run of reads handed out, in order. *)
Definition bytes_of (rs : list (list byte * option error)) : list byte :=
  concat (rs.*1).

(** The bytes of [data] that lie in the range of [d]. *)
Definition range_bytes (d : deferredPartialReadCloser) (data : list byte) : list byte :=
  take (Z.to_nat (in_range d (Z.of_nat (length data))))
       (drop (Z.to_nat (start d)) data).

(** The limited reader of a reader draws on the file the reader holds. *)
Definition coherent (d : deferredPartialReadCloser) : Prop :=
  ∀ l, reader d = Some l → file d = Some (lr_R l).

(** The reader holds a file, and that file is closed already. *)
Definition released (d : deferredPartialReadCloser) (w : World) : Prop :=
  ∃ fd f, file d = Some fd ∧ files w !! fd = Some f ∧ f_closed f = true.

(** The loop of [ioutil.ReadAll] as the integration test runs it over a
    reader: read after read into the free room of a growing buffer, until a
    read returns an error; [io.EOF] ends the loop with a nil error, any
    other error is returned with the bytes gathered so far.  The free room
    offered to each read is never empty; [bufs] lists it read by read, and
    the answer is [None] when the list runs out before an error came. *)
Fixpoint ReadAll (bufs : list Z) (d : deferredPartialReadCloser) (w : World)
  : option (list byte * option error) * deferredPartialReadCloser * World :=
  match bufs with
  | [] => (None, d, w)
  | len :: rest =>
    let '((bs, err), d1, w1) := Read d len w in
    match err with
    | Some e =>
      (Some (bs, if decide (e = io_EOF) then None else Some e), d1, w1)
    | None =>
      let '(r, d2, w2) := ReadAll rest d1 w1 in
      (match r with Some (more, e) => Some (bs ++ more, e) | None => None end,
       d2, w2)
    end
  end.

(** How a read to the end of a reader over [data] comes out: without error
    when the range lies within the file, and with the error of reading a
    closed file when the range runs past its end. *)
Definition end_of_range (d : deferredPartialReadCloser) (data : list byte)
    (err : option error) : Prop :=
  if decide (size d ≤ Z.max 0 (Z.of_nat (length data) - start d))
  then err = None
  else ∃ name, err = Some (PathError "read" name ErrClosed).



End FilePkg.



(** ** Package [image]: the content helpers (pkg/image/content_helpers.go) *)
Module ImagePkg.
Import GoRuntime FilePkg.

Inductive LinkResolutionOption := FollowNone | FollowBasenameLinks.

(** What a call can come to: a result, a returned error, or the panic of
    a nil pointer dereference. *)
Inductive outcome (A : Type) :=
| Ok (a : A)
| Err (e : error)
| Panic.
Arguments Ok {A} a.
Arguments Err {A} e.
Arguments Panic {A}.

(** The tree as the helpers use it: the method [File], which answers
    [(exists, reference, error)] with a nil reference as [None]. *)
Record FileTree := mkFileTree {
  File : string → LinkResolutionOption → bool * option Reference * option error
}.

(** Modelled from the spec: the catalog of package [image] ([FileCatalog]
    with [Add], [FileContents] and [MultipleFileContents]) is not among the
    sources.  An entry maps a reference to its content locator: the archive
    with the byte offset and the length. *)
Record Locator := mkLocator { archive : string; offset : Z; length_ : Z }.

Abbreviation FileCatalog := (gmap Reference Locator).

Definition Add (ref : Reference) (loc : Locator) (c : FileCatalog) : FileCatalog :=
  <[ref := loc]> c.

Definition lazy_reader (loc : Locator) : deferredPartialReadCloser :=
  newDeferredPartialReadCloser (archive loc) (offset loc) (length_ loc).

(** Modelled from the spec: [FileContents(ref)] answers a lazy reader for
    a registered reference and an error for one that was never added. *)
Definition FileContents (c : FileCatalog) (ref : Reference)
  : deferredPartialReadCloser + error :=
  match c !! ref with
  | Some loc => inl (lazy_reader loc)
  | None => inr (ErrUnregistered (ref_layer ref) (RealPath ref))
  end.

(** Modelled from the spec: [MultipleFileContents(refs...)] answers the
    map from each reference to its lazy reader, or fails as a whole with
    the first reference that was never added. *)
Fixpoint MultipleFileContents (c : FileCatalog) (refs : list Reference)
  : gmap Reference deferredPartialReadCloser + error :=
  match refs with
  | [] => inl ∅
  | ref :: rest =>
    match c !! ref with
    | None => inr (ErrUnregistered (ref_layer ref) (RealPath ref))
    | Some loc =>
      match MultipleFileContents c rest with
      | inl m => inl (<[ref := lazy_reader loc]> m)
      | inr e => inr e
      end
    end
  end.

(** The calls a helper makes on the catalog, in order. *)
Inductive catalog_call :=
| AskFileContents (ref : Reference)
| AskMultipleFileContents (refs : list Reference).

Definition not_found (path : string) : error :=
  Errorf ("could not find file path in Tree: " +:+ path).

Definition fetchFileContentsByPath (ft : FileTree) (fileCatalog : FileCatalog)
    (path : string)
  : outcome deferredPartialReadCloser * list catalog_call :=
  let '(exists_, fileReference, err) := File ft path FollowBasenameLinks in
  match err with
  | Some e => (Err e, [])
  | None =>
    if negb exists_ && bool_decide (fileReference = None)
    then (Err (not_found path), [])
    else
      match fileReference with
      | None => (Panic, [])
      | Some ref =>
        match FileContents fileCatalog ref with
        | inr e => (Err e, [AskFileContents ref])
        | inl reader => (Ok reader, [AskFileContents ref])
        end
      end
  end.

(** The loop of [fetchMultipleFileContentsByPath]: it fills
    [fileReferences] index by index and leaves at the first path whose
    lookup errs or finds nothing. *)
Fixpoint resolve_paths (ft : FileTree) (paths : list string)
  : outcome (list Reference) :=
  match paths with
  | [] => Ok []
  | p :: rest =>
    let '(exists_, fileReference, err) := File ft p FollowBasenameLinks in
    match err with
    | Some e => Err e
    | None =>
      if negb exists_ && bool_decide (fileReference = None)
      then Err (not_found p)
      else
        match fileReference with
        | None => Panic
        | Some ref =>
          match resolve_paths ft rest with
          | Ok refs => Ok (ref :: refs)
          | Err e => Err e
          | Panic => Panic
          end
        end
    end
  end.

Definition fetchMultipleFileContentsByPath (ft : FileTree)
    (fileCatalog : FileCatalog) (paths : list string)
  : outcome (gmap Reference deferredPartialReadCloser) * list catalog_call :=
  match resolve_paths ft paths with
  | Err e => (Err e, [])
  | Panic => (Panic, [])
  | Ok fileReferences =>
    match MultipleFileContents fileCatalog fileReferences with
    | inr e => (Err e, [AskMultipleFileContents fileReferences])
    | inl readers => (Ok readers, [AskMultipleFileContents fileReferences])
    end
  end.

(** The lookup of [p] answers the reference [r] without error. *)
Definition resolves (ft : FileTree) (p : string) (r : Reference) : Prop :=
  ∃ ex, File ft p FollowBasenameLinks = (ex, Some r, None).

(** The lookup of [p] fails, and [e] is what the helpers return for it:
    the error of the lookup itself, or the not-found error when the lookup
    answers that nothing is there. *)
Definition fails_with (ft : FileTree) (p : string) (e : error) : Prop :=
  (∃ ex r, File ft p FollowBasenameLinks = (ex, r, Some e)) ∨
  (File ft p FollowBasenameLinks = (false, None, None) ∧ e = not_found p).


(** What a helper returns for the answer of the catalog: the value, or
    the error as it is. *)
Definition catalog_answer {A} (r : A + error) : outcome A :=
  match r with inl a => Ok a | inr e => Err e end.

(** The lookup of [p] reports an existing file, no error and a nil
    reference. *)
Definition nil_reference (ft : FileTree) (p : string) : Prop :=
  File ft p FollowBasenameLinks = (true, None, None).

End ImagePkg.

(** ** Package [filetree]: trees of one layer and their squashing

    Modelled from the spec: the file tree and the squasher (packages
    [filetree] and [image], not among the sources; only the tests that
    call them are).  A tree is kept as the finite map from the path of each
    node below the root to the node; the children of a directory are the
    entries one name longer.  The root itself is never an entry. *)
Module FiletreePkg.
Import FilePkg.

Abbreviation Path := (list string).

(** Modelled from the spec: the tree node of package [filetree] (its
    declaration is not among the sources), tagged as the data model of the
    spec has it; the name of a node is the last component of its path and
    the children of a directory are the entries one name longer. *)
Inductive TreeNode :=
| Directory
| RegularFile (ref : Reference)
| Symlink (target : Path) (ref : Reference)
| Whiteout
| OpaqueWhiteout.

#[global] Instance TreeNode_eq_dec : EqDecision TreeNode.
Proof. solve_decision. Defined.

Abbreviation FileTree := (gmap Path TreeNode).

Definition is_marker (n : TreeNode) : bool :=
  match n with Whiteout | OpaqueWhiteout => true | _ => false end.

(** Nodes that hold no children: regular files and symlinks. *)
Definition is_leaf (n : TreeNode) : bool :=
  match n with RegularFile _ | Symlink _ _ => true | _ => false end.

Definition parent (p : Path) : Path := removelast p.

(** [below d k]: [k] lies strictly under [d]. *)
Definition below (d k : Path) : Prop := d `prefix_of` k ∧ d ≠ k.

#[global] Instance below_dec d k : Decision (below d k).
Proof. unfold below. apply _. Defined.

(** The naming convention of the archive: [.wh.<name>] hides the sibling
    [<name>], [.wh..wh..opq] makes its directory opaque. *)
Definition whiteout_prefix : string := ".wh.".
Definition opaque_name : string := ".wh..wh..opq".

Fixpoint strip_prefix (p s : string) : option string :=
  match p with
  | EmptyString => Some s
  | String a p' =>
    match s with
    | String b s' => if decide (a = b) then strip_prefix p' s' else None
    | EmptyString => None
    end
  end.

(** Modelled from the spec: the reading of a whiteout entry (the parser
    of the layer archive is not among the sources).  The path a whiteout
    entry at [k] hides is its sibling of the name that follows the prefix. *)
Definition whiteout_target (k : Path) : option Path :=
  match last k with
  | None => None
  | Some wn =>
    match strip_prefix whiteout_prefix wn with
    | Some name => Some (parent k ++ [name])
    | None => None
    end
  end.

Definition render (p : Path) : string :=
  match p with
  | [] => "/"
  | _ => foldr (λ c s, "/" +:+ c +:+ s) "" p
  end.

(** Modelled from the spec: deletion in a [FileTree] (not among the
    sources).  Remove the node at [p] with everything under it. *)
Definition RemovePath (p : Path) (t : FileTree) : FileTree :=
  filter (λ kv, ¬ p `prefix_of` kv.1) t.

(** Modelled from the spec: the opaque reset of a directory in a
    [FileTree] (not among the sources).  Remove everything under [d],
    keeping [d] itself. *)
Definition RemoveChildPaths (d : Path) (t : FileTree) : FileTree :=
  filter (λ kv, ¬ below d kv.1) t.

(** All nonempty prefixes of a path, shortest first. *)
Fixpoint inits (p : Path) : list Path :=
  match p with
  | [] => []
  | x :: r => [x] :: map (cons x) (inits r)
  end.

Definition ensure_dir (t : FileTree) (q : Path) : FileTree :=
  match t !! q with
  | Some Directory => t
  | _ => <[q := Directory]> t
  end.

(** Modelled from the spec: the insertion behind [AddFile], [AddSymlink],
    [AddWhiteout] and [AddOpaqueWhiteout] of [FileTree] (not among the
    sources).  Create or replace the terminal node at [p], creating the
    directories above it as needed.  A node that replaces a directory does
    not inherit its children. *)
Definition put_node (p : Path) (n : TreeNode) (t : FileTree) : FileTree :=
  <[p := n]> (foldl ensure_dir (RemoveChildPaths p t) (inits (parent p))).

Inductive tree_error := MalformedPath.

Definition AddFile (layer : nat) (p : Path) (t : FileTree) : FileTree + tree_error :=
  match p with
  | [] => inr MalformedPath
  | _ => inl (put_node p (RegularFile (mkReference layer (render p))) t)
  end.

Definition AddSymlink (layer : nat) (p target : Path) (t : FileTree)
  : FileTree + tree_error :=
  match p with
  | [] => inr MalformedPath
  | _ => inl (put_node p (Symlink target (mkReference layer (render p))) t)
  end.

Definition AddWhiteout (p : Path) (t : FileTree) : FileTree + tree_error :=
  match p with
  | [] => inr MalformedPath
  | _ => inl (put_node p Whiteout t)
  end.

Definition AddOpaqueWhiteout (dirPath : Path) (t : FileTree) : FileTree + tree_error :=
  inl (put_node (dirPath ++ [opaque_name]) OpaqueWhiteout t).

(** A well-formed tree: no entry for the root, and the parent of every
    entry is a directory of the tree (or the root). *)
Definition wf (t : FileTree) : Prop :=
  map_Forall (λ k _, k ≠ [] ∧ (parent k = [] ∨ t !! parent k = Some Directory)) t.

#[global] Instance wf_dec t : Decision (wf t).
Proof. unfold wf. apply _. Defined.

(** The trees one can grow from the empty tree by the four [Add]
    operations. *)
Inductive grown : FileTree → Prop :=
| grown_empty : grown ∅
| grown_file layer p t t' :
    grown t → AddFile layer p t = inl t' → grown t'
| grown_symlink layer p target t t' :
    grown t → AddSymlink layer p target t = inl t' → grown t'
| grown_whiteout p t t' :
    grown t → AddWhiteout p t = inl t' → grown t'
| grown_opaque d t t' :
    grown t → AddOpaqueWhiteout d t = inl t' → grown t'.

(** *** The squasher *)

Abbreviation entry := (Path * TreeNode)%type.

(** Modelled from the spec: step 1 of the squasher (not among the
    sources), for one entry: an opaque marker empties its directory. *)
Definition opaque_reset (acc : FileTree) (e : entry) : FileTree :=
  match e.2 with
  | OpaqueWhiteout => RemoveChildPaths (parent e.1) acc
  | _ => acc
  end.

(** The node of layer [i] at path [p] as it enters the accumulator: its
    file reference points at layer [i]. *)
Definition retarget (i : nat) (p : Path) (n : TreeNode) : TreeNode :=
  match n with
  | RegularFile _ => RegularFile (mkReference i (render p))
  | Symlink target _ => Symlink target (mkReference i (render p))
  | other => other
  end.

(** Modelled from the spec: step 2 of the squasher (not among the
    sources), for one entry: insert or overwrite the path.  Markers are
    skipped; a directory stays a directory and keeps what is under it; a
    regular file or symlink replaces the node and drops what was under
    it. *)
Definition insert_entry (i : nat) (acc : FileTree) (e : entry) : FileTree :=
  match e.2 with
  | Whiteout | OpaqueWhiteout => acc
  | Directory => ensure_dir acc e.1
  | n => <[e.1 := retarget i e.1 n]> (RemoveChildPaths e.1 acc)
  end.

(** Modelled from the spec: step 3 of the squasher (not among the
    sources), for one entry: a whiteout deletes the sibling it names. *)
Definition apply_whiteout (acc : FileTree) (e : entry) : FileTree :=
  match e.2 with
  | Whiteout =>
    match whiteout_target e.1 with
    | Some p => RemovePath p acc
    | None => acc
    end
  | _ => acc
  end.

(** Modelled from the spec: the first two steps of the squasher (not
    among the sources) for one layer, given as the enumeration [es] of its
    entries: all the resets, then all the inserts. *)
Definition inserted_entries (i : nat) (es : list entry) (acc : FileTree) : FileTree :=
  let acc1 := foldl opaque_reset acc es in
  foldl (insert_entry i) acc1 es.

(** Modelled from the spec: the squasher (not among the sources) for
    one layer: resets, then inserts, then whiteouts. *)
Definition squash_entries (i : nat) (es : list entry) (acc : FileTree) : FileTree :=
  let acc2 := inserted_entries i es acc in
  foldl apply_whiteout acc2 es.

(** Modelled from the spec: one layer tree applied to the accumulator,
    its entries taken in the order the map lists them. *)
Definition squash_layer (i : nat) (layer : FileTree) (acc : FileTree) : FileTree :=
  squash_entries i (map_to_list layer) acc.

(** Modelled from the spec: the squasher (not among the sources) over
    the layers from index [i] on, the accumulator holding the layers
    before; each squash tree is a copy of the accumulator. *)
Fixpoint squash_from (i : nat) (acc : FileTree) (layers : list FileTree)
  : list FileTree :=
  match layers with
  | [] => []
  | l :: rest =>
    let acc' := squash_layer i l acc in
    acc' :: squash_from (S i) acc' rest
  end.

(** Modelled from the spec: the squash trees of an image, one per index,
    from the empty accumulator. *)
Definition squash (layers : list FileTree) : list FileTree :=
  squash_from 0 ∅ layers.

(** Modelled from the spec: the final squash tree is the result of the
    last index. *)
Definition final_squash (layers : list FileTree) : FileTree :=
  default ∅ (last (squash layers)).

(** The accumulator as layer [k] finds it: empty for the bottom layer,
    else the squash tree of the index before. *)
Definition acc_before (layers : list FileTree) (k : nat) : FileTree :=
  match k with
  | O => ∅
  | S k' => default ∅ (squash layers !! k')
  end.

(** What one entry does to a path [p]. *)
Definition resets_entry (p : Path) (e : entry) : Prop :=
  e.2 = OpaqueWhiteout ∧ below (parent e.1) p.

Definition hides_entry (p : Path) (e : entry) : Prop :=
  e.2 = Whiteout ∧
  match whiteout_target e.1 with Some q => q `prefix_of` p | None => False end.

Definition shadows_entry (p : Path) (e : entry) : Prop :=
  is_leaf e.2 = true ∧ below e.1 p.

#[global] Instance resets_entry_dec p e : Decision (resets_entry p e).
Proof. unfold resets_entry. apply _. Defined.
#[global] Instance hides_entry_dec p e : Decision (hides_entry p e).
Proof. unfold hides_entry. destruct (whiteout_target e.1); apply _. Defined.
#[global] Instance shadows_entry_dec p e : Decision (shadows_entry p e).
Proof. unfold shadows_entry. apply _. Defined.

(** What a layer does to a path, read off its entries. *)
Definition adds (l : FileTree) (p : Path) : Prop :=
  ∃ n, l !! p = Some n ∧ is_marker n = false.

(** Some whiteout of the layer names exactly [p]. *)
Definition whites_out (l : FileTree) (p : Path) : Prop :=
  map_Exists (λ k n, n = Whiteout ∧ whiteout_target k = Some p) l.

(** Some whiteout of the layer names [p] or a path above it. *)
Definition hides (l : FileTree) (p : Path) : Prop :=
  map_Exists (λ k n, hides_entry p (k, n)) l.

(** Some directory above [p] is opaque in the layer. *)
Definition resets (l : FileTree) (p : Path) : Prop :=
  map_Exists (λ k n, resets_entry p (k, n)) l.

(** Some regular file or symlink of the layer sits above [p]. *)
Definition shadows (l : FileTree) (p : Path) : Prop :=
  map_Exists (λ k n, shadows_entry p (k, n)) l.

(** The directory [d] carries an opaque marker in the layer. *)
Definition opaque_in (l : FileTree) (d : Path) : Prop :=
  map_Exists (λ k n, n = OpaqueWhiteout ∧ parent k = d) l.

(** The layer takes [p] out of the accumulator and does not put it back. *)
Definition removes (l : FileTree) (p : Path) : Prop :=
  hides l p ∨ (¬ adds l p ∧ (resets l p ∨ shadows l p)).

#[global] Instance adds_dec l p : Decision (adds l p).
Proof.
  unfold adds. destruct (l !! p) as [n|].
  - destruct (is_marker n) eqn:E.
    + right. intros (m & [= <-] & Hm). congruence.
    + left. eauto.
  - right. intros (m & [=] & _).
Defined.

#[global] Instance whites_out_dec l p : Decision (whites_out l p).
Proof. unfold whites_out. apply _. Defined.
#[global] Instance hides_dec l p : Decision (hides l p).
Proof. unfold hides. apply _. Defined.
#[global] Instance resets_dec l p : Decision (resets l p).
Proof. unfold resets. apply _. Defined.
#[global] Instance shadows_dec l p : Decision (shadows l p).
Proof. unfold shadows. apply _. Defined.
#[global] Instance opaque_in_dec l d : Decision (opaque_in l d).
Proof. unfold opaque_in. apply _. Defined.
#[global] Instance removes_dec l p : Decision (removes l p).
Proof. unfold removes. apply _. Defined.

(** The node at [k] after layer [i] went over the accumulator, stated
    from the layer as a whole.  [kept]: what the resets and the files of
    the layer leave of the accumulator. *)
Definition kept (l acc : FileTree) (k : Path) : option TreeNode :=
  if decide (resets l k ∨ shadows l k) then None else acc !! k.

(** [staged]: the node after the resets and the inserts of the layer. *)
Definition staged (i : nat) (l acc : FileTree) (k : Path) : option TreeNode :=
  match l !! k with
  | Some n => if is_marker n then kept l acc k else Some (retarget i k n)
  | None => kept l acc k
  end.

(** [merged]: the node after the whiteouts of the layer as well. *)
Definition merged (i : nat) (l acc : FileTree) (k : Path) : option TreeNode :=
  if decide (hides l k) then None else staged i l acc k.

(** [es] lists the entries of [l], each once, in some order. *)
Definition enumerates (es : list entry) (l : FileTree) : Prop :=
  NoDup es.*1 ∧ ∀ k n, (k, n) ∈ es ↔ l !! k = Some n.

Definition no_markers (t : FileTree) : Prop :=
  ∀ k n, t !! k = Some n → is_marker n = false.

End FiletreePkg.

(** ** Small fixtures to run the definitions on *)
Module Fixtures.
Import GoRuntime FilePkg.

Definition five_bytes : list byte := [x01; x02; x03; x04; x05].

(** A disk with one archive of five bytes and a system that never fails. *)
Definition calm_world : World :=
  mkWorld {[ "layer.tar" := five_bytes ]} [] [] (λ _, NoFault).


(** A reader of bytes 1..3 and one whose range runs past the end of the
    archive. *)
Definition inner_reader : deferredPartialReadCloser :=
  newDeferredPartialReadCloser "layer.tar" 1 3.
Definition overlong_reader : deferredPartialReadCloser :=
  newDeferredPartialReadCloser "layer.tar" 3 10.

(** The overlong reader after one read of two bytes: it stands at the
    end of the archive with eight bytes of its range left. *)
Definition overlong_at_end : deferredPartialReadCloser :=
  mkDeferred "layer.tar" (Some 0%nat) (Some (mkLimited 0 8)) 3 10.
Definition world_at_end : World :=
  mkWorld {[ "layer.tar" := five_bytes ]}
          [mkFile "layer.tar" five_bytes 5 false]
          [EvOpen "layer.tar"; EvSeek 0 3; EvRead 0 2] (λ _, NoFault).

(** A client that creates two readers and closes the first. *)
Definition unread_ops : list pool_op :=
  [OpNew "layer.tar" 1 3; OpNew "layer.tar" 3 10; OpClose 0].

(** A tree that knows two files and fails on one path, and a catalog that
    has only the first file. *)
Definition ref_a : Reference := mkReference 0 "/a".
Definition ref_b : Reference := mkReference 1 "/b".
Definition small_tree : ImagePkg.FileTree :=
  ImagePkg.mkFileTree (λ p _,
    if decide (p = "/a") then (true, Some ref_a, None)
    else if decide (p = "/b") then (true, Some ref_b, None)
    else if decide (p = "/loop") then (false, None, Some (Errorf "symlink cycle"))
    else (false, None, None)).
Definition catalog_a : gmap Reference ImagePkg.Locator :=
  {[ ref_a := ImagePkg.mkLocator "layer.tar" 1 3 ]}.
Definition catalog_ab : gmap Reference ImagePkg.Locator :=
  <[ ref_b := ImagePkg.mkLocator "layer.tar" 3 10 ]> catalog_a.

(** Layer trees are grown from the empty tree by the [Add] operations. *)
Definition grow (t : gmap (list string) FiletreePkg.TreeNode)
    (step : gmap (list string) FiletreePkg.TreeNode →
            gmap (list string) FiletreePkg.TreeNode + FiletreePkg.tree_error)
  : gmap (list string) FiletreePkg.TreeNode :=
  match step t with inl t' => t' | inr _ => t end.

Definition tree_of
    (steps : list (gmap (list string) FiletreePkg.TreeNode →
                   gmap (list string) FiletreePkg.TreeNode + FiletreePkg.tree_error))
  : gmap (list string) FiletreePkg.TreeNode :=
  foldl grow ∅ steps.

(** The three layers of the [image-simple] fixture of the integration
    test (its [assertImageSimpleTrees]). *)
Definition image_simple : list (gmap (list string) FiletreePkg.TreeNode) :=
  [ tree_of [FiletreePkg.AddFile 0 ["somefile-1.txt"]];
    tree_of [FiletreePkg.AddFile 1 ["somefile-2.txt"]];
    tree_of [FiletreePkg.AddOpaqueWhiteout ["really"];
             FiletreePkg.AddFile 2 ["really"; "nested"; "file-3.txt"]] ].

(** The scenario of the spec: [/a], then [/b], then an opaque whiteout of
    the root with [/b/nested]. *)
Definition opaque_root : list (gmap (list string) FiletreePkg.TreeNode) :=
  [ tree_of [FiletreePkg.AddFile 0 ["a"]];
    tree_of [FiletreePkg.AddFile 1 ["b"]];
    tree_of [FiletreePkg.AddOpaqueWhiteout [];
             FiletreePkg.AddFile 2 ["b"; "nested"]] ].

(** [/a] added, left alone, whited out, and a later unrelated layer. *)
Definition add_then_whiteout : list (gmap (list string) FiletreePkg.TreeNode) :=
  [ tree_of [FiletreePkg.AddFile 0 ["a"]];
    tree_of [FiletreePkg.AddFile 1 ["b"]];
    tree_of [FiletreePkg.AddWhiteout [".wh.a"]];
    tree_of [FiletreePkg.AddFile 3 ["c"]] ].

(** [/a] added, whited out by the next layer, and added again. *)
Definition add_whiteout_add : list (gmap (list string) FiletreePkg.TreeNode) :=
  [ tree_of [FiletreePkg.AddFile 0 ["a"]];
    tree_of [FiletreePkg.AddWhiteout [".wh.a"]];
    tree_of [FiletreePkg.AddFile 2 ["a"]] ].

(** One layer that adds [/a] and whites it out. *)
Definition add_and_whiteout : gmap (list string) FiletreePkg.TreeNode :=
  tree_of [FiletreePkg.AddFile 1 ["a"]; FiletreePkg.AddWhiteout [".wh.a"];
           FiletreePkg.AddFile 1 ["b"]].

(** The small tree with one more path, whose lookup reports a file
    without a reference. *)
Definition odd_tree : ImagePkg.FileTree :=
  ImagePkg.mkFileTree (λ p o,
    if decide (p = "/odd") then (true, None, None)
    else ImagePkg.File small_tree p o).

End Fixtures.

(** * Properties *)

(** ** The deferred partial read closer *)
Section DeferredReader.
Import GoRuntime FilePkg.

Lemma opens_and_seeks_app l1 l2 :
  opens_and_seeks (l1 ++ l2) = opens_and_seeks l1 ++ opens_and_seeks l2.
Proof. apply List.filter_app. Qed.

Lemma File_Read_log fd len w r w' :
  File_Read fd len w = (r, w') → ∃ evs, log w' = log w ++ evs ∧ quiet evs.
Proof.
  unfold File_Read. intros H.
  destruct (files w !! fd) as [f|]; [|exists []; simplify_eq; by rewrite app_nil_r].
  destruct (f_closed f); [exists []; simplify_eq; by rewrite app_nil_r|].
  destruct (len <=? 0); [exists []; simplify_eq; by rewrite app_nil_r|].
  exists [EvRead fd len]. split; [|done].
  destruct (next_fault w); simplify_eq; try done;
    destruct (_ <=? 0); by simplify_eq.
Qed.

Lemma File_Close_log fp w r w' :
  File_Close fp w = (r, w') → ∃ evs, log w' = log w ++ evs ∧ quiet evs.
Proof.
  unfold File_Close. intros H.
  destruct fp as [fd|]; [|exists []; simplify_eq; by rewrite app_nil_r].
  destruct (files w !! fd) as [f|]; [|exists []; simplify_eq; by rewrite app_nil_r].
  destruct (f_closed f); [exists []; simplify_eq; by rewrite app_nil_r|].
  exists [EvClose fd]. split; [|done].
  destruct (next_fault w); by simplify_eq.
Qed.

Lemma LimitedReader_Read_log l len w r l' w' :
  LimitedReader_Read l len w = (r, l', w') →
  ∃ evs, log w' = log w ++ evs ∧ quiet evs.
Proof.
  unfold LimitedReader_Read. intros H.
  destruct (lr_N l <=? 0); [exists []; simplify_eq; by rewrite app_nil_r|].
  destruct (File_Read _ _ w) as [[bs err] w1] eqn:E.
  apply File_Read_log in E. by simplify_eq.
Qed.

Lemma read_and_release_log d l len w r d' w' :
  read_and_release d l len w = (r, d', w') →
  ∃ evs, log w' = log w ++ evs ∧ quiet evs.
Proof.
  unfold read_and_release. intros H.
  destruct (LimitedReader_Read l len w) as [[[bs err] l1] w1] eqn:E.
  apply LimitedReader_Read_log in E as (e1 & E1 & Q1).
  destruct (errors_Is_EOF err).
  - destruct (File_Close (file d) w1) as [cerr w2] eqn:C.
    apply File_Close_log in C as (e2 & E2 & Q2).
    exists (e1 ++ e2). split.
    + destruct (negb _); simplify_eq; by rewrite E2, E1, app_assoc.
    + unfold quiet. by rewrite opens_and_seeks_app, Q1, Q2.
  - simplify_eq. eauto.
Qed.

(** A reader that already holds its limited reader opens and seeks
    nothing when read. *)
Lemma Read_installed_quiet d l len w r d' w' :
  reader d = Some l → Read d len w = (r, d', w') →
  ∃ evs, log w' = log w ++ evs ∧ quiet evs.
Proof.
  unfold Read, open_on_demand. intros -> H.
  by apply read_and_release_log in H.
Qed.

Lemma Close_quiet d w r d' w' :
  Close d w = (r, d', w') → ∃ evs, log w' = log w ++ evs ∧ quiet evs.
Proof.
  unfold Close. intros H.
  destruct (file d) as [f|]; [|exists []; simplify_eq; by rewrite app_nil_r].
  destruct (File_Close (Some f) w) as [err w1] eqn:C.
  apply File_Close_log in C. by simplify_eq.
Qed.

(** The first read of a reader opens the path before anything else and,
    once the open went through, seeks the new file to [start]. *)
Lemma Read_first_opens d len w :
  reader d = None →
  ∃ rest, log (Read d len w).2 = log w ++ EvOpen (path d) :: rest ∧
    ∀ fd w1, os_Open (path d) w = (inl fd, w1) →
      ∃ rest', rest = EvSeek fd (start d) :: rest' ∧ quiet rest'.
Proof.
  destruct (Read d len w) as [[r d'] w'] eqn:H. revert H.
  unfold Read, open_on_demand. intros H Hd. rewrite Hd in H. simpl.
  destruct (os_Open (path d) w) as [[fd|err] w1] eqn:O.
  - assert (log w1 = log w ++ [EvOpen (path d)] ∧
            files w1 !! fd = Some (mkFile (path d) (default [] (disk w !! path d)) 0 false))
      as [L1 F1].
    { unfold os_Open in O. destruct (next_fault w); try done;
        destruct (disk w !! path d); simplify_eq; simpl;
        (split; [done|]); by rewrite lookup_app_r, Nat.sub_diag. }
    unfold File_Seek in H. rewrite F1 in H. simpl in H.
    set (w2 := emit (EvSeek fd (start d)) w1) in *.
    assert (log w2 = log w ++ [EvOpen (path d); EvSeek fd (start d)]) as L2.
    { subst w2. simpl. rewrite L1, <- app_assoc. done. }
    assert (∃ evs, log w' = log w2 ++ evs ∧ quiet evs) as (evs & E & Q).
    { destruct (next_fault w1); [| exists []; simplify_eq; by rewrite app_nil_r |];
        (destruct (start d <? 0); [exists []; simplify_eq; by rewrite app_nil_r|]);
        apply read_and_release_log in H as (evs & E & Q); exists evs; split; done. }
    exists (EvSeek fd (start d) :: evs). split.
    + rewrite E, L2, <- app_assoc. done.
    + intros fd' w1' [= <- <-]. eauto.
  - exists []. split.
    + unfold os_Open in O. destruct (next_fault w); try done;
        destruct (disk w !! path d); by simplify_eq.
    + intros ? ? [=].
Qed.

Lemma Read_keeps_installed d l len w :
  reader d = Some l → is_Some (reader (Read d len w).1.2).
Proof.
  unfold Read, open_on_demand, read_and_release. intros ->.
  destruct (LimitedReader_Read l len w) as [[[bs err] l1] w1].
  destruct (errors_Is_EOF err); [|by eexists].
  destruct (File_Close (file d) w1) as [cerr w2].
  destruct (negb _); by eexists.
Qed.

Lemma reads_installed_quiet bufs d l w :
  reader d = Some l →
  ∃ evs, log (reads bufs d w).2 = log w ++ evs ∧ quiet evs.
Proof.
  revert d l w. induction bufs as [|len bufs IH]; intros d l w Hd; simpl.
  - exists []. by rewrite app_nil_r.
  - destruct (Read d len w) as [[r d1] w1] eqn:E.
    pose proof (Read_keeps_installed d l len w Hd) as [l1 Hl1].
    rewrite E in Hl1. simpl in Hl1.
    apply (Read_installed_quiet _ _ _ _ _ _ _ Hd) in E as (e1 & E1 & Q1).
    destruct (IH d1 l1 w1 Hl1) as (e2 & E2 & Q2).
    destruct (reads bufs d1 w1) as [[rs d2] w2]. simpl in *.
    exists (e1 ++ e2). split.
    + by rewrite E2, E1, app_assoc.
    + unfold quiet. by rewrite opens_and_seeks_app, Q1, Q2.
Qed.

(** Creating and closing readers that were never read leaves the world
    as it was. *)
Lemma pool_run_unread ops pool w :
  Forall (λ o, is_read o = false) ops →
  Forall (λ d, file d = None) pool →
  (pool_run ops (pool, w)).2 = w ∧ Forall (λ d, file d = None) (pool_run ops (pool, w)).1.
Proof.
  intros Hops. revert pool. induction Hops as [|o ops Ho _ IH]; intros pool Hp.
  - done.
  - change (pool_run (o :: ops) (pool, w)) with (pool_run ops (pool_step (pool, w) o)).
    destruct o as [p s z|i len|i]; [| done |]; simpl.
    + apply IH. apply Forall_app. split; [done|]. by constructor.
    + destruct (pool !! i) as [d|] eqn:Hi; [|by apply IH].
      assert (file d = None) as Hd by (by eapply Forall_lookup in Hp).
      unfold Close. rewrite Hd. rewrite list_insert_id by done. by apply IH.
Qed.

(** No operation other than [Read] opens or seeks, whatever the pool. *)
Lemma pool_run_no_read_quiet ops pool w :
  Forall (λ o, is_read o = false) ops →
  opens_and_seeks (log (pool_run ops (pool, w)).2) = opens_and_seeks (log w).
Proof.
  intros Hops. revert pool w. induction Hops as [|o ops Ho _ IH]; intros pool w.
  - done.
  - change (pool_run (o :: ops) (pool, w)) with (pool_run ops (pool_step (pool, w) o)).
    destruct o as [p s z|i len|i]; [| done |]; simpl.
    + apply IH.
    + destruct (pool !! i) as [d|] eqn:Hi; [|by apply IH].
      destruct (Close d w) as [[r d1] w1] eqn:C.
      apply Close_quiet in C as (evs & E & Q).
      rewrite IH, E, opens_and_seeks_app, Q. by rewrite app_nil_r.
Qed.

(** C7. Constructing a deferred reader touches nothing: the new reader
    holds neither file nor limited reader, and any run of constructions
    and closes (no read) from an empty pool leaves the world, log included,
    exactly as it was; from any pool such a run adds no open and no seek to
    the log.  The open of the path and the seek to [start] are the first
    things the first [Read] does, and no later [Read] of the reader that
    it installed opens or seeks again. *)
Theorem deferred_reader_opens_on_first_read
    (ops : list pool_op) (pool : list deferredPartialReadCloser) (w : World)
    (p : string) (s z len : Z) (bufs : list Z) :
  Forall (λ o, is_read o = false) ops →
  let d := newDeferredPartialReadCloser p s z in
  (file d = None ∧ reader d = None) ∧
  (pool_run ops ([], w)).2 = w ∧
  opens_and_seeks (log (pool_run ops (pool, w)).2) = opens_and_seeks (log w) ∧
  (∃ rest, log (Read d len w).2 = log w ++ EvOpen p :: rest ∧
     ∀ fd w1, os_Open p w = (inl fd, w1) →
       ∃ rest', rest = EvSeek fd s :: rest' ∧ quiet rest') ∧
  (let '(_, d1, w1) := Read d len w in
   is_Some (reader d1) →
   ∃ evs, log (reads bufs d1 w1).2 = log w1 ++ evs ∧ quiet evs).
Proof.
  intros Hops d. split; [done|]. split; [|split; [|split]].
  - by apply pool_run_unread.
  - by apply pool_run_no_read_quiet.
  - by apply (Read_first_opens d).
  - destruct (Read d len w) as [[r d1] w1]. intros [l Hl].
    by eapply reads_installed_quiet.
Qed.

(** *** Byte counts *)

Lemma transfer_bounds ft len avail :
  0 < len → 0 < avail → 1 ≤ transfer ft len avail ≤ Z.min len avail.
Proof. unfold transfer. destruct ft; lia. Qed.

Lemma File_Read_length fd len w bs err w' :
  File_Read fd len w = ((bs, err), w') →
  Z.of_nat (length bs) ≤ Z.max 0 len ∧ (is_Some err → bs = []).
Proof.
  unfold File_Read. intros H.
  destruct (files w !! fd) as [f|]; [|simplify_eq; simpl; split; [lia|done]].
  destruct (f_closed f); [simplify_eq; simpl; split; [lia|done]|].
  destruct (len <=? 0) eqn:Hlen; [simplify_eq; simpl; split; [lia|done]|].
  apply Z.leb_gt in Hlen.
  assert (∀ ft, ft ≠ IOError →
    (if Z.of_nat (length (f_data f)) - f_off f <=? 0
     then (([], Some io_EOF), emit (EvRead fd len) w)
     else
       (take (Z.to_nat (transfer ft len (Z.of_nat (length (f_data f)) - f_off f)))
             (drop (Z.to_nat (f_off f)) (f_data f)), None,
        set_file fd (mkFile (f_name f) (f_data f)
          (f_off f + transfer ft len (Z.of_nat (length (f_data f)) - f_off f)) false)
          (emit (EvRead fd len) w))) = ((bs, err), w') →
    Z.of_nat (length bs) ≤ Z.max 0 len ∧ (is_Some err → bs = [])) as Hgen.
  { intros ft _ H'. destruct (_ <=? 0) eqn:Hav; simplify_eq; simpl; [split; [lia|done]|].
    apply Z.leb_gt in Hav.
    pose proof (transfer_bounds ft len _ Hlen Hav).
    split; [|by intros [? [=]]].
    rewrite length_take. lia. }
  destruct (next_fault w) eqn:Hf.
  - by apply (Hgen NoFault).
  - simplify_eq. simpl. split; [lia|done].
  - by apply (Hgen (Short k)).
Qed.

Lemma LimitedReader_Read_length l len w bs err l' w' :
  LimitedReader_Read l len w = ((bs, err), l', w') →
  lr_N l' = lr_N l - Z.of_nat (length bs) ∧ lr_R l' = lr_R l ∧
  Z.of_nat (length bs) ≤ Z.max 0 (lr_N l) ∧ (is_Some err → bs = []).
Proof.
  unfold LimitedReader_Read. intros H.
  destruct (lr_N l <=? 0) eqn:HN.
  - simplify_eq. simpl. repeat split; try lia; done.
  - apply Z.leb_gt in HN.
    destruct (File_Read _ _ w) as [[bs1 err1] w1] eqn:E.
    apply File_Read_length in E as [E1 E2]. simplify_eq. simpl.
    repeat split; try done. destruct (lr_N l <? len) eqn:C; [lia|].
    apply Z.ltb_ge in C. lia.
Qed.

Lemma read_and_release_result d l len w bs err d' w' :
  read_and_release d l len w = ((bs, err), d', w') →
  ∃ err0 l1 w1, LimitedReader_Read l len w = ((bs, err0), l1, w1) ∧
    reader d' = Some l1 ∧ file d' = file d ∧ path d' = path d ∧
    start d' = start d ∧ size d' = size d.
Proof.
  unfold read_and_release. intros H.
  destruct (LimitedReader_Read l len w) as [[[bs1 err1] l1] w1].
  exists err1, l1, w1.
  destruct (errors_Is_EOF err1).
  - destruct (File_Close (file d) w1) as [cerr w2].
    destruct (negb _); by simplify_eq.
  - by simplify_eq.
Qed.

Lemma open_on_demand_budget d w d1 l w1 :
  open_on_demand d w = (inr (d1, l), w1) →
  reader d1 = Some l ∧ budget d1 = budget d.
Proof.
  unfold open_on_demand, budget. intros H.
  destruct (reader d) as [l0|] eqn:Hr.
  - simplify_eq. by rewrite Hr.
  - destruct (os_Open (path d) w) as [[f|err] w2]; [|done].
    destruct (File_Seek f (start d) w2) as [[serr|] w3]; [done|].
    by simplify_eq.
Qed.

(** Each read hands out no more than the budget and takes what it hands
    out off the budget. *)
Lemma Read_budget d len w bs err d' w' :
  Read d len w = ((bs, err), d', w') →
  Z.of_nat (length bs) + budget d' ≤ budget d.
Proof.
  unfold Read. intros H.
  destruct (open_on_demand d w) as [[e|[d1 l]] w1] eqn:O.
  - simplify_eq. simpl. lia.
  - apply open_on_demand_budget in O as [Hl <-].
    apply read_and_release_result in H as (err0 & l1 & w2 & L & Hr & _).
    apply LimitedReader_Read_length in L as (HN & _ & Hlen & _).
    unfold budget. rewrite Hr, Hl. lia.
Qed.

Lemma reads_budget bufs d w :
  bytes_all (reads bufs d w).1.1 + budget (reads bufs d w).1.2 ≤ budget d.
Proof.
  revert d w. induction bufs as [|len bufs IH]; intros d w; simpl.
  - lia.
  - destruct (Read d len w) as [[[bs err] d1] w1] eqn:E.
    apply Read_budget in E. specialize (IH d1 w1).
    destruct (reads bufs d1 w1) as [[rs d2] w2]. simpl in *. lia.
Qed.

Lemma bytes_ok_le_all rs : bytes_ok rs ≤ bytes_all rs.
Proof.
  induction rs as [|[bs [e|]] rs IH]; simpl in *; lia.
Qed.

Lemma File_Read_open fd len w f :
  files w !! fd = Some f → f_closed f = false → 0 < len →
  next_fault w ≠ IOError → 0 ≤ f_off f →
  let avail := Z.of_nat (length (f_data f)) - f_off f in
  ∃ bs err w', File_Read fd len w = ((bs, err), w') ∧ faults w' = faults w ∧
    if decide (avail ≤ 0)
    then bs = [] ∧ err = Some io_EOF ∧ files w' = files w
    else 1 ≤ Z.of_nat (length bs) ≤ Z.min len avail ∧ err = None ∧
         files w' = <[fd := mkFile (f_name f) (f_data f)
                              (f_off f + Z.of_nat (length bs)) false]> (files w).
Proof.
  intros Hf Hc Hlen Hft Hoff avail. unfold File_Read. rewrite Hf, Hc.
  destruct (len <=? 0) eqn:E; [apply Z.leb_le in E; lia|]. clear E.
  fold avail.
  assert (∀ ft, ∃ bs err w',
    (if avail <=? 0 then (([], Some io_EOF), emit (EvRead fd len) w)
     else (take (Z.to_nat (transfer ft len avail)) (drop (Z.to_nat (f_off f)) (f_data f)),
           None,
           set_file fd (mkFile (f_name f) (f_data f) (f_off f + transfer ft len avail) false)
                    (emit (EvRead fd len) w))) = ((bs, err), w') ∧
    faults w' = faults w ∧
    if decide (avail ≤ 0)
    then bs = [] ∧ err = Some io_EOF ∧ files w' = files w
    else 1 ≤ Z.of_nat (length bs) ≤ Z.min len avail ∧ err = None ∧
         files w' = <[fd := mkFile (f_name f) (f_data f)
                              (f_off f + Z.of_nat (length bs)) false]> (files w)) as Hgen.
  { intros ft. destruct (avail <=? 0) eqn:Hav.
    - apply Z.leb_le in Hav. eexists _, _, _. split; [done|]. split; [done|].
      by rewrite decide_True by done.
    - apply Z.leb_gt in Hav. eexists _, _, _. split; [done|]. split; [done|].
      rewrite decide_False by lia.
      pose proof (transfer_bounds ft len avail Hlen Hav) as Ht.
      assert (Z.of_nat (length (take (Z.to_nat (transfer ft len avail))
                (drop (Z.to_nat (f_off f)) (f_data f)))) = transfer ft len avail) as ->.
      { rewrite length_take, length_drop. subst avail. lia. }
      done. }
  destruct (next_fault w); [apply (Hgen NoFault) | done | apply (Hgen (Short k))].
Qed.

Lemma File_Close_open fd w f :
  files w !! fd = Some f → f_closed f = false → next_fault w ≠ IOError →
  ∃ w', File_Close (Some fd) w = (None, w') ∧ faults w' = faults w ∧
    files w' = <[fd := mkFile (f_name f) (f_data f) (f_off f) true]> (files w).
Proof.
  intros Hf Hc Hft. unfold File_Close. rewrite Hf, Hc.
  destruct (next_fault w); [|done|]; eexists; done.
Qed.

(** One read of a streaming reader, with a buffer that has room: the
    reader stays streaming, and as long as the range is not used up the
    read succeeds with at least one byte. *)
Lemma Read_streaming data d w k len :
  0 ≤ start d → no_io_error w → streaming data d w k → 0 < len →
  ∃ bs err d' w', Read d len w = ((bs, err), d', w') ∧
    no_io_error w' ∧ start d' = start d ∧ size d' = size d ∧
    streaming data d' w' (k + Z.of_nat (length bs)) ∧
    (is_Some err → bs = []) ∧
    (k < in_range d (Z.of_nat (length data)) → 1 ≤ Z.of_nat (length bs) ∧ err = None).
Proof.
  intros Hstart Hio (fd & f & Hfile & Hreader & Hf & Hdata & Hk & Hstate) Hlen.
  unfold Read, open_on_demand. rewrite Hreader.
  unfold read_and_release, LimitedReader_Read. simpl.
  assert (fd < length (files w))%nat as Hlt by (by eapply lookup_lt_Some).
  unfold in_range in *.
  destruct (size d - k <=? 0) eqn:HN.
  - (* the limited reader is used up *)
    apply Z.leb_le in HN. simpl. rewrite Hfile.
    destruct (f_closed f) eqn:Hc.
    + unfold File_Close. rewrite Hf, Hc. simpl.
      eexists _, _, _, _. split; [done|]. simpl.
      split; [done|]. split; [done|]. split; [done|]. split; [|split; [done|lia]].
      exists fd, f. rewrite Hc. simpl. rewrite ?Z.add_0_r, ?Z.sub_0_r.
      repeat split; try done; unfold in_range; simpl; lia.
    + destruct (File_Close_open fd w f Hf Hc (Hio _)) as (w' & -> & Hfa & Hfi).
      simpl. eexists _, _, _, _. split; [done|]. simpl.
      split; [unfold no_io_error; by rewrite Hfa|].
      split; [done|]. split; [done|]. split; [|split; [by intros [? [=]]|lia]].
      eexists fd, _. rewrite Hfi, list_lookup_insert_eq by done. simpl.
      rewrite ?Z.add_0_r, ?Z.sub_0_r. repeat split; try done; unfold in_range; simpl; lia.
  - apply Z.leb_gt in HN.
    set (len' := if size d - k <? len then size d - k else len).
    assert (0 < len' ≤ size d - k) as Hlen'.
    { subst len'. destruct (_ <? len) eqn:C; [lia|]. apply Z.ltb_ge in C. lia. }
    destruct (f_closed f) eqn:Hc.
    + (* the file was released at its end with the range not used up *)
      unfold File_Read. rewrite Hf, Hc. simpl.
      eexists _, _, _, _. split; [done|]. simpl.
      split; [done|]. split; [done|]. split; [done|]. split; [|split; [done|lia]].
      exists fd, f. rewrite Hc. simpl. rewrite ?Z.add_0_r, ?Z.sub_0_r.
      repeat split; try done; unfold in_range; simpl; lia.
    + destruct (File_Read_open fd len' w f Hf Hc (proj1 Hlen') (Hio _))
        as (bs & err & w1 & -> & Hfa & Hres); [lia|].
      rewrite Hdata in Hres. simpl.
      destruct (decide (Z.of_nat (length data) - f_off f ≤ 0)) as [Hav|Hav].
      * destruct Hres as (-> & -> & Hfi). simpl. rewrite Hfile.
        assert (files w1 !! fd = Some f) as Hf1 by (by rewrite Hfi).
        assert (no_io_error w1) as Hio1 by (unfold no_io_error; by rewrite Hfa).
        destruct (File_Close_open fd w1 f Hf1 Hc (Hio1 _)) as (w' & -> & Hfa' & Hfi').
        simpl. eexists _, _, _, _. split; [done|]. simpl.
        split; [unfold no_io_error; by rewrite Hfa'|].
        split; [done|]. split; [done|]. split; [|split; [done|lia]].
        eexists fd, _. rewrite Hfi', Hfi, list_lookup_insert_eq by done. simpl.
        rewrite ?Z.add_0_r, ?Z.sub_0_r. repeat split; try done; unfold in_range; simpl; lia.
      * destruct Hres as (Hbs & -> & Hfi). simpl.
        eexists _, _, _, _. split; [done|]. simpl.
        split; [unfold no_io_error; by rewrite Hfa|].
        split; [done|]. split; [done|].
        split; [|split; [by intros [? [=]]|intros _; split; [lia|done]]].
        eexists fd, _. rewrite Hfi, list_lookup_insert_eq by done. simpl.
        repeat split; try done; unfold in_range; simpl; try lia.
        do 2 f_equal. lia.
Qed.

Lemma reads_streaming data bufs d w k :
  0 ≤ start d → no_io_error w → streaming data d w k →
  Forall (λ b, 0 < b) bufs →
  in_range d (Z.of_nat (length data)) - k ≤ Z.of_nat (length bufs) →
  bytes_ok (reads bufs d w).1.1 = in_range d (Z.of_nat (length data)) - k ∧
  bytes_all (reads bufs d w).1.1 = in_range d (Z.of_nat (length data)) - k.
Proof.
  intros Hstart Hio Hs Hbufs. revert d w k Hstart Hio Hs.
  induction Hbufs as [|len bufs Hlen _ IH]; intros d w k Hstart Hio Hs Hn; simpl.
  - destruct Hs as (fd & f & _ & _ & _ & _ & Hk & _). simpl in Hn. lia.
  - destruct (Read_streaming data d w k len Hstart Hio Hs Hlen)
      as (bs & err & d1 & w1 & -> & Hio1 & Hst1 & Hsz1 & Hs1 & Herr & Hprog).
    assert (in_range d1 (Z.of_nat (length data)) = in_range d (Z.of_nat (length data)))
      as Hr by (unfold in_range; by rewrite Hst1, Hsz1).
    assert (in_range d (Z.of_nat (length data)) - (k + Z.of_nat (length bs))
            ≤ Z.of_nat (length bufs)) as Hn1.
    { simpl in Hn. destruct (decide (k < in_range d (Z.of_nat (length data)))) as [Hlt|Hge].
      - destruct (Hprog Hlt). lia.
      - lia. }
    rewrite <- Hr in Hn1. rewrite <- Hst1 in Hstart.
    destruct (IH d1 w1 _ Hstart Hio1 Hs1 Hn1) as [IH1 IH2].
    destruct (reads bufs d1 w1) as [[rs d2] w2]. simpl in *.
    rewrite IH2, Hr. split; [|lia].
    destruct err as [e|]; [|rewrite IH1, Hr; lia].
    rewrite IH1, Hr, (Herr (mk_is_Some _ _ eq_refl)). simpl. lia.
Qed.

Lemma os_Open_ok p w data :
  disk w !! p = Some data → next_fault w ≠ IOError →
  ∃ w1, os_Open p w = (inl (length (files w)), w1) ∧ faults w1 = faults w ∧
    files w1 = files w ++ [mkFile p data 0 false].
Proof.
  intros Hdisk Hft. unfold os_Open. rewrite Hdisk.
  destruct (next_fault w); [|done|]; eexists; done.
Qed.

Lemma File_Seek_ok fd off w f :
  files w !! fd = Some f → f_closed f = false → next_fault w ≠ IOError → 0 ≤ off →
  ∃ w1, File_Seek fd off w = (None, w1) ∧ faults w1 = faults w ∧
    files w1 = <[fd := mkFile (f_name f) (f_data f) off false]> (files w).
Proof.
  intros Hf Hc Hft Hoff. unfold File_Seek. rewrite Hf, Hc.
  destruct (off <? 0) eqn:E; [apply Z.ltb_lt in E; lia|].
  destruct (next_fault w); [|done|]; eexists; done.
Qed.

(** The first block of the first read, on a path that exists and with a
    system that does not fail, leaves a streaming reader. *)
Lemma open_on_demand_fresh p s z data w :
  disk w !! p = Some data → no_io_error w → 0 ≤ s → 0 ≤ z →
  ∃ d1 l1 w1,
    open_on_demand (newDeferredPartialReadCloser p s z) w = (inr (d1, l1), w1) ∧
    reader d1 = Some l1 ∧ start d1 = s ∧ size d1 = z ∧
    no_io_error w1 ∧ streaming data d1 w1 0.
Proof.
  intros Hdisk Hio Hs Hz. unfold open_on_demand. simpl.
  destruct (os_Open_ok p w data Hdisk (Hio _)) as (w1 & -> & Hfa1 & Hfi1).
  assert (no_io_error w1) as Hio1 by (unfold no_io_error; by rewrite Hfa1).
  assert (files w1 !! length (files w) = Some (mkFile p data 0 false)) as Hf1.
  { by rewrite Hfi1, lookup_app_r, Nat.sub_diag. }
  destruct (File_Seek_ok _ s w1 _ Hf1 eq_refl (Hio1 _) Hs) as (w2 & -> & Hfa2 & Hfi2).
  eexists _, _, _. split; [done|]. simpl.
  split; [done|]. split; [done|]. split; [done|].
  split; [unfold no_io_error; by rewrite Hfa2|].
  eexists _, _. simpl. split; [done|]. split; [by rewrite Z.sub_0_r|].
  split.
  { rewrite Hfi2, list_lookup_insert_eq; [done|].
    rewrite Hfi1, length_app. simpl. lia. }
  simpl. split; [done|]. split; [unfold in_range; simpl; lia|]. lia.
Qed.

Lemma Read_after_open d w d1 l1 w1 len :
  open_on_demand d w = (inr (d1, l1), w1) → reader d1 = Some l1 →
  Read d len w = Read d1 len w1.
Proof.
  intros Ho Hr. unfold Read at 1 2. rewrite Ho.
  unfold open_on_demand. by rewrite Hr.
Qed.

(** C8. Over all the reads of a deferred reader with a range of [z]
    bytes from [s] on, the bytes handed out never exceed [z], whatever the
    file and the buffers and whatever fails; and over a file of [data]
    that opens and reads without failure, read with buffers that have room
    until the range is through, the bytes handed out by the successful
    reads are exactly [min z (max 0 (length data - s))]. *)
Theorem deferred_reader_total_bytes
    (p : string) (s z : Z) (data : list byte) (bufs : list Z) (w : World) :
  0 ≤ s → 0 ≤ z →
  let d := newDeferredPartialReadCloser p s z in
  let rs := (reads bufs d w).1.1 in
  let avail := Z.min z (Z.max 0 (Z.of_nat (length data) - s)) in
  bytes_ok rs ≤ z ∧ bytes_all rs ≤ z ∧
  (disk w !! p = Some data → no_io_error w →
   Forall (λ b, 0 < b) bufs → avail ≤ Z.of_nat (length bufs) →
   bytes_ok rs = avail ∧ bytes_all rs = avail).
Proof.
  intros Hs Hz d rs avail.
  assert (bytes_all rs ≤ z) as Hall.
  { pose proof (reads_budget bufs d w) as H. fold rs in H.
    unfold budget in H. simpl in H. destruct (reader _); lia. }
  split; [pose proof (bytes_ok_le_all rs); lia|]. split; [done|].
  intros Hdisk Hio Hbufs Hn.
  destruct bufs as [|len bufs].
  { subst rs avail. simpl in *. lia. }
  destruct (open_on_demand_fresh p s z data w Hdisk Hio Hs Hz)
    as (d1 & l1 & w1 & Ho & Hr & Hst & Hsz & Hio1 & Hstr).
  assert (reads (len :: bufs) d w = reads (len :: bufs) d1 w1) as E.
  { simpl. by rewrite (Read_after_open d w d1 l1 w1 len Ho Hr). }
  subst rs. rewrite E.
  assert (in_range d1 (Z.of_nat (length data)) = avail) as Ha.
  { unfold in_range. by rewrite Hst, Hsz. }
  rewrite <- Hst in Hs.
  destruct (reads_streaming data (len :: bufs) d1 w1 0 Hs Hio1 Hstr Hbufs) as [H1 H2].
  { rewrite Ha. lia. }
  rewrite H1, H2, Ha. lia.
Qed.

(** *** Closing *)







Lemma history_cons c cs d w :
  history (c :: cs) d w = history cs (do_call c d w).1 (do_call c d w).2.
Proof. unfold history. simpl. by destruct (do_call c d w). Qed.





(** *** The end of the range *)

(** C10. On the read in which the limited reader answers end of file
    while the file is still open, [Read] closes the file and returns the
    result of that close in place of the end of file: never [io.EOF], and
    nil when the close succeeds.  Every read after that returns no bytes
    and [io.EOF] when the limited reader is used up, and the error of
    reading a closed file when it is not (the range ran past the end of the
    file). *)
Theorem Read_swaps_EOF_for_close_result
    (d d1 : deferredPartialReadCloser) (l l' : LimitedReader) (len : Z)
    (w w1 w2 : World) (bs : list byte) (fd : nat) (f : osFile) :
  open_on_demand d w = (inr (d1, l), w1) →
  file d1 = Some fd → lr_R l = fd →
  LimitedReader_Read l len w1 = ((bs, Some io_EOF), l', w2) →
  files w2 !! fd = Some f → f_closed f = false →
  ∃ closeErr w3 d',
    File_Close (Some fd) w2 = (closeErr, w3) ∧
    Read d len w = ((bs, closeErr), d', w3) ∧
    closeErr ≠ Some io_EOF ∧
    (next_fault w2 ≠ IOError → closeErr = None) ∧
    ∀ len2, Read d' len2 w3 =
      (([], Some (if lr_N l' <=? 0 then io_EOF
                  else PathError "read" (f_name f) ErrClosed)), d', w3).
Proof.
  intros Ho Hfile HR HL Hf Hc.
  destruct (File_Close (Some fd) w2) as [closeErr w3] eqn:C.
  assert (files w3 !! fd = Some (mkFile (f_name f) (f_data f) (f_off f) true) ∧
          closeErr ≠ Some io_EOF ∧ errors_Is_ErrClosed closeErr = false ∧
          (next_fault w2 ≠ IOError → closeErr = None)) as (Hf3 & HnE & HnC & Hok).
  { unfold File_Close in C. rewrite Hf, Hc in C.
    assert (fd < length (files w2))%nat by (by eapply lookup_lt_Some).
    destruct (next_fault w2); simplify_eq; simpl;
      rewrite list_lookup_insert_eq by done; done. }
  pose proof (LimitedReader_Read_length _ _ _ _ _ _ _ HL) as (_ & HR' & _ & _).
  exists closeErr, w3, (mkDeferred (path d1) (file d1) (Some l') (start d1) (size d1)).
  split; [done|]. split; [|split; [done|split; [done|]]].
  - unfold Read. rewrite Ho. unfold read_and_release. rewrite HL. simpl.
    rewrite Hfile, C, HnC. done.
  - intros len2. unfold Read, open_on_demand, read_and_release. simpl.
    unfold LimitedReader_Read. destruct l' as [r' n']. simpl in *.
    destruct (n' <=? 0) eqn:Hn; simpl.
    + rewrite Hfile. unfold File_Close. rewrite Hf3. simpl. done.
    + unfold File_Read. rewrite HR', HR, Hf3. simpl.
      by rewrite Z.sub_0_r.
Qed.

Lemma deferred_reader_opens_on_first_read_witness :
  Forall (λ o, is_read o = false) Fixtures.unread_ops ∧
  (pool_run Fixtures.unread_ops ([], Fixtures.calm_world)).2 = Fixtures.calm_world ∧
  ∃ rest, log (Read Fixtures.inner_reader 2 Fixtures.calm_world).2
          = log Fixtures.calm_world ++ EvOpen "layer.tar" :: rest.
Proof.
  assert (Forall (λ o, is_read o = false) Fixtures.unread_ops) as H
    by (repeat constructor).
  split; [exact H|].
  destruct (deferred_reader_opens_on_first_read
              Fixtures.unread_ops [] Fixtures.calm_world "layer.tar" 1 3 2 [2; 2] H)
    as (_ & Hw & _ & (rest & Hl & _) & _).
  split; [exact Hw|]. exists rest. exact Hl.
Defined.

Lemma deferred_reader_total_bytes_witness :
  bytes_ok (reads [2; 2; 2; 2] Fixtures.overlong_reader Fixtures.calm_world).1.1 = 2 ∧
  bytes_all (reads [2; 2; 2; 2] Fixtures.overlong_reader Fixtures.calm_world).1.1 = 2.
Proof.
  destruct (deferred_reader_total_bytes "layer.tar" 3 10 Fixtures.five_bytes
              [2; 2; 2; 2] Fixtures.calm_world) as (_ & _ & H); [lia | lia |].
  apply H.
  - reflexivity.
  - intros i. simpl. discriminate.
  - repeat constructor.
  - simpl. lia.
Defined.

Lemma Read_swaps_EOF_for_close_result_witness :
  ∃ closeErr w3 d',
    File_Close (Some 0%nat) (emit (EvRead 0 2) Fixtures.world_at_end) = (closeErr, w3) ∧
    Read Fixtures.overlong_at_end 2 Fixtures.world_at_end = (([], closeErr), d', w3) ∧
    closeErr ≠ Some io_EOF ∧
    (next_fault (emit (EvRead 0 2) Fixtures.world_at_end) ≠ IOError → closeErr = None) ∧
    ∀ len2, Read d' len2 w3 =
      (([], Some (if 8 <=? 0 then io_EOF
                  else PathError "read" "layer.tar" ErrClosed)), d', w3).
Proof.
  apply (Read_swaps_EOF_for_close_result
           Fixtures.overlong_at_end Fixtures.overlong_at_end
           (mkLimited 0 8) (mkLimited 0 8) 2
           Fixtures.world_at_end Fixtures.world_at_end
           (emit (EvRead 0 2) Fixtures.world_at_end) [] 0%nat
           (mkFile "layer.tar" Fixtures.five_bytes 5 false));
    reflexivity.
Defined.

(** The two ways a reader ends, run from the start: the inner reader
    answers nil on the read that meets the end of its range and [io.EOF]
    from then on; the overlong reader answers nil on the read that meets
    the end of the file and the closed-file error from then on. *)
Example inner_reader_trace :
  (reads [2; 2; 2; 2; 2] Fixtures.inner_reader Fixtures.calm_world).1.1 =
  [([x02; x03], None); ([x04], None); ([], None);
   ([], Some io_EOF); ([], Some io_EOF)].
Proof. vm_compute. reflexivity. Qed.

Example overlong_reader_trace :
  (reads [2; 2; 2; 2] Fixtures.overlong_reader Fixtures.calm_world).1.1 =
  [([x04; x05], None); ([], None);
   ([], Some (PathError "read" "layer.tar" ErrClosed));
   ([], Some (PathError "read" "layer.tar" ErrClosed))].
Proof. vm_compute. reflexivity. Qed.

Example overlong_at_end_reached :
  reads [2] Fixtures.overlong_reader Fixtures.calm_world =
  ([([x04; x05], None)], Fixtures.overlong_at_end, Fixtures.world_at_end).
Proof. vm_compute. reflexivity. Qed.

End DeferredReader.

(** ** The content helpers *)
Section ContentHelpers.
Import GoRuntime FilePkg ImagePkg.

(** C5. When the lookup of the path in the tree finds nothing,
    [fetchFileContentsByPath] returns no reader but the not-found error
    that names the path; when the lookup returns an error, that very error
    is returned; in both cases the catalog is never asked. *)
Theorem fetchFileContentsByPath_lookup_failure
    (ft : FileTree) (fileCatalog : gmap Reference Locator) (path : string) (e : error) :
  fails_with ft path e →
  fetchFileContentsByPath ft fileCatalog path = (Err e, []).
Proof.
  unfold fetchFileContentsByPath. intros [(ex & r & ->)|[-> ->]]; done.
Qed.

Lemma fetchFileContentsByPath_lookup_failure_witness :
  fetchFileContentsByPath Fixtures.small_tree Fixtures.catalog_a "/missing"
    = (Err (Errorf "could not find file path in Tree: /missing"), []) ∧
  fetchFileContentsByPath Fixtures.small_tree Fixtures.catalog_a "/loop"
    = (Err (Errorf "symlink cycle"), []).
Proof.
  split.
  - apply (fetchFileContentsByPath_lookup_failure
             Fixtures.small_tree Fixtures.catalog_a "/missing").
    right. split; reflexivity.
  - apply (fetchFileContentsByPath_lookup_failure
             Fixtures.small_tree Fixtures.catalog_a "/loop").
    left. exists false, None. reflexivity.
Defined.

Lemma resolve_paths_all ft paths refs :
  Forall2 (resolves ft) paths refs → resolve_paths ft paths = Ok refs.
Proof.
  induction 1 as [|p r paths refs [ex Hp] _ IH]; simpl; [done|].
  rewrite Hp, IH. by rewrite andb_false_r.
Qed.






End ContentHelpers.

(** ** The squasher *)
Section Squasher.
Import FilePkg FiletreePkg.

Implicit Types (t acc l : gmap Path TreeNode) (k p q d : Path) (n : TreeNode)
  (e : entry) (es : list entry).

(** *** Lookups of the tree operations *)

Lemma RemovePath_lookup p t k :
  RemovePath p t !! k = if decide (p `prefix_of` k) then None else t !! k.
Proof.
  unfold RemovePath. rewrite map_lookup_filter.
  destruct (t !! k) as [n|]; simpl; [|by case_decide].
  case_decide; [by rewrite option_guard_False by (simpl; tauto)|].
  by rewrite option_guard_True.
Qed.

Lemma RemoveChildPaths_lookup d t k :
  RemoveChildPaths d t !! k = if decide (below d k) then None else t !! k.
Proof.
  unfold RemoveChildPaths. rewrite map_lookup_filter.
  destruct (t !! k) as [n|]; simpl; [|by case_decide].
  case_decide; [by rewrite option_guard_False by (simpl; tauto)|].
  by rewrite option_guard_True.
Qed.

Lemma ensure_dir_insert t q : ensure_dir t q = <[q := Directory]> t.
Proof.
  unfold ensure_dir. destruct (t !! q) as [[]|] eqn:E; try done.
  by rewrite insert_id.
Qed.

Lemma opaque_reset_lookup acc e k :
  opaque_reset acc e !! k = if decide (resets_entry k e) then None else acc !! k.
Proof.
  destruct (decide (resets_entry k e)) as [[Hn Hb]|Hnot]; unfold opaque_reset.
  - rewrite Hn, RemoveChildPaths_lookup. by rewrite decide_True.
  - destruct (e.2) eqn:E; try done.
    rewrite RemoveChildPaths_lookup, decide_False; [done|].
    intros Hb. by apply Hnot.
Qed.

Lemma apply_whiteout_lookup acc e k :
  apply_whiteout acc e !! k = if decide (hides_entry k e) then None else acc !! k.
Proof.
  destruct (decide (hides_entry k e)) as [[Hn Hb]|Hnot]; unfold apply_whiteout.
  - rewrite Hn. destruct (whiteout_target e.1) as [p|]; [|done].
    rewrite RemovePath_lookup. by rewrite decide_True.
  - destruct (e.2) eqn:E; try done.
    destruct (whiteout_target e.1) as [p|] eqn:T; [|done].
    rewrite RemovePath_lookup, decide_False; [done|].
    intros Hb. apply Hnot. split; [done|]. by rewrite T.
Qed.

Lemma insert_entry_lookup i acc e k :
  insert_entry i acc e !! k =
    if is_marker e.2 then acc !! k
    else if decide (k = e.1) then Some (retarget i k e.2)
    else if decide (shadows_entry k e) then None
    else acc !! k.
Proof.
  destruct e as [q n]. unfold insert_entry. cbn [fst snd].
  destruct (is_marker n) eqn:Hm; [by destruct n|].
  destruct (decide (k = q)) as [->|Hne].
  { destruct n; try done; [rewrite ensure_dir_insert| |]; by rewrite lookup_insert_eq. }
  destruct (decide (shadows_entry k (q, n))) as [[Hl Hb]|Hnot]; cbn [fst snd] in *.
  - destruct n; try done; rewrite lookup_insert_ne by done;
      rewrite RemoveChildPaths_lookup; by rewrite decide_True.
  - destruct n; try done.
    + rewrite ensure_dir_insert. by rewrite lookup_insert_ne.
    + rewrite lookup_insert_ne by done. rewrite RemoveChildPaths_lookup.
      rewrite decide_False; [done|]. intros Hb. by apply Hnot.
    + rewrite lookup_insert_ne by done. rewrite RemoveChildPaths_lookup.
      rewrite decide_False; [done|]. intros Hb. by apply Hnot.
Qed.

(** *** The three passes over an enumeration *)

Lemma resets_pass_lookup es acc k :
  foldl opaque_reset acc es !! k =
    if decide (Exists (resets_entry k) es) then None else acc !! k.
Proof.
  revert acc. induction es as [|e es IH]; intros acc; cbn [foldl].
  - rewrite decide_False; [done|]. by intros ?%Exists_nil.
  - rewrite IH, opaque_reset_lookup.
    destruct (decide (Exists (resets_entry k) es)) as [H|H].
    + rewrite decide_True; [done|]. by right.
    + destruct (decide (resets_entry k e)) as [He|He].
      * rewrite decide_True; [done|]. by left.
      * rewrite decide_False; [done|]. by intros [?|?]%Exists_cons.
Qed.

Lemma whiteouts_pass_lookup es acc k :
  foldl apply_whiteout acc es !! k =
    if decide (Exists (hides_entry k) es) then None else acc !! k.
Proof.
  revert acc. induction es as [|e es IH]; intros acc; cbn [foldl].
  - rewrite decide_False; [done|]. by intros ?%Exists_nil.
  - rewrite IH, apply_whiteout_lookup.
    destruct (decide (Exists (hides_entry k) es)) as [H|H].
    + rewrite decide_True; [done|]. by right.
    + destruct (decide (hides_entry k e)) as [He|He].
      * rewrite decide_True; [done|]. by left.
      * rewrite decide_False; [done|]. by intros [?|?]%Exists_cons.
Qed.

(** In a well-formed tree everything above an entry is a directory. *)
Lemma wf_key_nonempty l k n : wf l → l !! k = Some n → k ≠ [].
Proof. intros Hwf Hk. by destruct (Hwf k n Hk). Qed.

Lemma wf_ancestor l k n q :
  wf l → l !! k = Some n → below q k → q ≠ [] → l !! q = Some Directory.
Proof.
  intros Hwf Hk [[s ->] Hne] Hq. revert n Hk Hne.
  induction s as [|x s IH] using rev_ind; intros n Hk Hne.
  - by rewrite app_nil_r in Hne.
  - destruct (Hwf _ _ Hk) as [_ Hpar]. unfold parent in Hpar.
    rewrite app_assoc, removelast_last in Hpar.
    destruct Hpar as [Hnil|Hdir].
    { apply app_eq_nil in Hnil as [? _]. done. }
    destruct s as [|y s'] using rev_ind.
    + by rewrite app_nil_r in Hdir.
    + apply (IH Directory Hdir). intros Heq.
      apply (f_equal length) in Heq. rewrite !length_app in Heq. simpl in Heq. lia.
Qed.

Lemma inserts_pass_kept i es acc k :
  (∀ n, (k, n) ∈ es → is_marker n = true) →
  foldl (insert_entry i) acc es !! k =
    if decide (Exists (shadows_entry k) es) then None else acc !! k.
Proof.
  revert acc. induction es as [|e es IH]; intros acc Hk; cbn [foldl].
  - rewrite decide_False; [done|]. by intros ?%Exists_nil.
  - rewrite IH by (intros n Hn; apply Hk; by right).
    rewrite insert_entry_lookup.
    destruct (decide (Exists (shadows_entry k) es)) as [H|H].
    { rewrite decide_True; [done|]. by right. }
    destruct e as [q m]. cbn [fst snd].
    destruct (is_marker m) eqn:Hm.
    { rewrite decide_False; [done|].
      intros [[Hl _]|?]%Exists_cons; [|done]. by destruct m. }
    destruct (decide (k = q)) as [->|Hne].
    { rewrite (Hk m) in Hm; [done|by left]. }
    destruct (decide (shadows_entry k (q, m))) as [He|He].
    + rewrite decide_True; [done|]. by left.
    + rewrite decide_False; [done|]. by intros [?|?]%Exists_cons.
Qed.

Lemma inserts_pass_added i l es acc k n :
  wf l → NoDup es.*1 → (∀ e, e ∈ es → l !! e.1 = Some e.2) →
  (k, n) ∈ es → is_marker n = false →
  foldl (insert_entry i) acc es !! k = Some (retarget i k n).
Proof.
  intros Hwf. revert acc.
  induction es as [|e es IH]; intros acc Hnd Hsub Hin Hm; cbn [foldl].
  { by apply elem_of_nil in Hin. }
  rewrite fmap_cons in Hnd. apply NoDup_cons in Hnd as [Hfresh Hnd].
  apply elem_of_cons in Hin as [<-|Hin].
  - assert (l !! k = Some n) as Hlk by (apply (Hsub (k, n)); by left).
    rewrite inserts_pass_kept.
    + rewrite decide_False.
      * rewrite insert_entry_lookup. cbn [fst snd]. rewrite Hm.
        by rewrite decide_True.
      * intros ([q m] & Hq & Hl & Hb)%Exists_exists. cbn [fst snd] in *.
        assert (l !! q = Some m) as Hlq by (apply (Hsub (q, m)); by right).
        rewrite (wf_ancestor l k n q Hwf Hlk Hb) in Hlq
          by (by eapply wf_key_nonempty).
        by simplify_eq.
    + intros m Hkm. destruct Hfresh. apply list_elem_of_fmap.
      by exists (k, m).
  - apply IH; [done| |done..]. intros e' He'. apply Hsub. by right.
Qed.

Lemma Exists_enumerates (P : entry → Prop) es l :
  enumerates es l → Exists P es ↔ map_Exists (λ k n, P (k, n)) l.
Proof.
  intros [_ Hes]. rewrite Exists_exists. unfold map_Exists. split.
  - intros ([k n] & Hin & HP). exists k, n. split; [by apply Hes|done].
  - intros (k & n & Hl & HP). exists (k, n). split; [by apply Hes|done].
Qed.

Lemma map_to_list_enumerates l : enumerates (map_to_list l) l.
Proof.
  split; [apply NoDup_fst_map_to_list|]. intros k n. apply elem_of_map_to_list.
Qed.

Lemma Permutation_enumerates es l : es ≡ₚ map_to_list l → enumerates es l.
Proof.
  intros Hp. destruct (map_to_list_enumerates l) as [Hnd Hes]. split.
  - by rewrite Hp.
  - intros k n. by rewrite Hp.
Qed.

(** The node at every path after the first two passes of one layer. *)
Lemma inserted_entries_lookup i l es acc k :
  wf l → enumerates es l → inserted_entries i es acc !! k = staged i l acc k.
Proof.
  intros Hwf Hes. unfold inserted_entries, staged.
  assert (∀ m, (∀ n, l !! k = Some n → is_marker n = true) →
    foldl (insert_entry i) m es !! k =
      if decide (Exists (shadows_entry k) es) then None else m !! k) as Hkept.
  { intros m Hmark. apply inserts_pass_kept. intros n Hn. apply Hmark.
    by apply Hes. }
  assert ((∀ n, l !! k = Some n → is_marker n = true) →
    foldl (insert_entry i) (foldl opaque_reset acc es) es !! k = kept l acc k) as Hk.
  { intros Hmark. rewrite Hkept by done. rewrite resets_pass_lookup. unfold kept.
    destruct (decide (Exists (shadows_entry k) es)) as [Hs|Hs].
    { rewrite decide_True; [done|]. right. by apply (Exists_enumerates _ _ l Hes). }
    destruct (decide (Exists (resets_entry k) es)) as [Hr|Hr].
    { rewrite decide_True; [done|]. left. by apply (Exists_enumerates _ _ l Hes). }
    rewrite decide_False; [done|].
    intros [?|?]; [apply Hr|apply Hs]; by apply (Exists_enumerates _ _ l Hes). }
  destruct (l !! k) as [n|] eqn:Hl.
  - destruct (is_marker n) eqn:Hm.
    + apply Hk. by intros ? [= <-].
    + destruct Hes as [Hnd Hes'].
      apply (inserts_pass_added i l); try done.
      * intros [q m] Hin. by apply Hes'.
      * by apply Hes'.
  - apply Hk. by intros ? [=].
Qed.

(** The node at every path after one layer, whatever the order in which
    the entries of the layer were enumerated. *)
Lemma squash_entries_lookup i l es acc k :
  wf l → enumerates es l → squash_entries i es acc !! k = merged i l acc k.
Proof.
  intros Hwf Hes. unfold squash_entries, merged.
  rewrite whiteouts_pass_lookup.
  destruct (decide (hides l k)) as [Hh|Hh].
  { rewrite decide_True; [done|]. by apply (Exists_enumerates _ _ l Hes). }
  rewrite decide_False by (by rewrite (Exists_enumerates _ _ l Hes)).
  by apply inserted_entries_lookup.
Qed.

Lemma squash_layer_lookup i l acc k :
  wf l → squash_layer i l acc !! k = merged i l acc k.
Proof. intros Hwf. apply squash_entries_lookup; [done|apply map_to_list_enumerates]. Qed.

Lemma whites_out_hides l p : whites_out l p → hides l p.
Proof.
  intros (k & n & Hk & -> & Ht). exists k, Whiteout. split; [done|].
  split; [done|]. cbn [fst]. by rewrite Ht.
Qed.

Lemma squash_layer_hidden i l acc p : hides l p → squash_layer i l acc !! p = None.
Proof.
  intros Hh. unfold squash_layer, squash_entries. rewrite whiteouts_pass_lookup.
  rewrite decide_True; [done|].
  by apply (Exists_enumerates _ _ l (map_to_list_enumerates l)).
Qed.

Lemma merged_idempotent i l acc k :
  wf l → merged i l (squash_layer i l acc) k = merged i l acc k.
Proof.
  intros Hwf. unfold merged, staged, kept. rewrite squash_layer_lookup by done.
  unfold merged, staged, kept.
  destruct (decide (hides l k)) as [Hh|Hh]; [done|].
  destruct (l !! k) as [m|]; [destruct (is_marker m); [|done]|];
    by destruct (decide (resets l k ∨ shadows l k)) as [Hr|Hr].
Qed.

(** C4. Within one layer the whiteout wins: a path the layer both adds
    and whites out is absent from the result.  The result of a layer does
    not depend on the order in which its entries are enumerated, and
    applying the same layer a second time changes nothing. *)
Theorem squash_layer_whiteout_wins_order_free_idempotent
    (i : nat) (l acc : gmap Path TreeNode) (p : Path) (es : list entry) :
  wf l →
  (adds l p → whites_out l p → squash_layer i l acc !! p = None) ∧
  (es ≡ₚ map_to_list l → squash_entries i es acc = squash_layer i l acc) ∧
  squash_layer i l (squash_layer i l acc) = squash_layer i l acc.
Proof.
  intros Hwf. split; [|split].
  - intros _ Hw. apply squash_layer_hidden. by apply whites_out_hides.
  - intros Hp. apply map_eq. intros k.
    rewrite squash_layer_lookup by done.
    apply squash_entries_lookup; [done|]. by apply Permutation_enumerates.
  - apply map_eq. intros k.
    rewrite !(squash_layer_lookup i l) by done. by apply merged_idempotent.
Qed.

(** *** No marker survives *)

Lemma retarget_not_marker i k n : is_marker n = false → is_marker (retarget i k n) = false.
Proof. by destruct n. Qed.

Lemma foldl_no_markers (f : gmap Path TreeNode → entry → gmap Path TreeNode) es acc :
  (∀ t e, no_markers t → no_markers (f t e)) →
  no_markers acc → no_markers (foldl f acc es).
Proof.
  intros Hf. revert acc. induction es as [|e es IH]; intros acc Hacc; [done|].
  cbn [foldl]. apply IH. by apply Hf.
Qed.

Lemma squash_entries_no_markers i es acc :
  no_markers acc → no_markers (squash_entries i es acc).
Proof.
  intros Hacc. unfold squash_entries.
  apply foldl_no_markers.
  { intros t e Ht k n. rewrite apply_whiteout_lookup. case_decide; [done|]. apply Ht. }
  apply foldl_no_markers.
  { intros t e Ht k n. rewrite insert_entry_lookup.
    destruct (is_marker e.2) eqn:Hm; [apply Ht|].
    case_decide; [intros [= <-]; by apply retarget_not_marker|].
    case_decide; [done|]. apply Ht. }
  apply foldl_no_markers; [|done].
  intros t e Ht k n. rewrite opaque_reset_lookup. case_decide; [done|]. apply Ht.
Qed.

Lemma squash_from_no_markers i acc layers :
  no_markers acc → Forall no_markers (squash_from i acc layers).
Proof.
  revert i acc. induction layers as [|l layers IH]; intros i acc Hacc; simpl.
  - constructor.
  - assert (no_markers (squash_layer i l acc)) as H
      by (by apply squash_entries_no_markers).
    constructor; [done|]. by apply IH.
Qed.

(** C1. In the squash tree of every index, and in the final squash tree,
    no node is a whiteout or an opaque whiteout. *)
Theorem squash_trees_hold_no_markers
    (layers : list (gmap Path TreeNode)) (idx : nat) (t : gmap Path TreeNode)
    (p : Path) (n : TreeNode) :
  (squash layers !! idx = Some t ∨ t = final_squash layers) →
  t !! p = Some n →
  n ≠ Whiteout ∧ n ≠ OpaqueWhiteout.
Proof.
  intros Ht Hp.
  assert (Forall no_markers (squash layers)) as Hall.
  { apply squash_from_no_markers. intros k m. by rewrite lookup_empty. }
  assert (no_markers t) as Hno.
  { destruct Ht as [Ht| ->].
    - by eapply Forall_lookup in Hall.
    - unfold final_squash. destruct (last (squash layers)) as [t'|] eqn:E; simpl.
      + rewrite last_lookup in E. by eapply Forall_lookup in Hall.
      + intros k m. by rewrite lookup_empty. }
  specialize (Hno p n Hp). by destruct n.
Qed.

(** *** Squash trees by index *)

Lemma squash_from_length i acc layers :
  length (squash_from i acc layers) = length layers.
Proof.
  revert i acc. induction layers as [|l layers IH]; intros i acc; simpl; [done|].
  by rewrite IH.
Qed.

Lemma squash_from_lookup_S i acc layers (k : nat) l :
  layers !! S k = Some l →
  ∃ t, squash_from i acc layers !! k = Some t ∧
       squash_from i acc layers !! S k = Some (squash_layer (i + S k) l t).
Proof.
  revert i acc k. induction layers as [|l0 layers IH]; intros i acc k Hl; [done|].
  simpl in Hl. cbn [squash_from]. destruct k as [|k].
  - destruct layers as [|l1 layers]; [done|]. simpl in Hl. simplify_eq. simpl.
    eexists. split; [done|]. by rewrite Nat.add_1_r.
  - destruct (IH (S i) (squash_layer i l0 acc) k Hl) as (t & Ht & HS).
    exists t. split; [done|]. simpl in *. rewrite HS.
    by replace (i + S (S k))%nat with (S (i + S k)) by lia.
Qed.

Lemma squash_lookup layers (k : nat) l :
  layers !! k = Some l →
  squash layers !! k = Some (squash_layer k l (acc_before layers k)).
Proof.
  intros Hl. destruct k as [|k].
  - destruct layers as [|l0 layers]; [done|]. simpl in Hl. by simplify_eq.
  - destruct (squash_from_lookup_S 0 ∅ layers k l Hl) as (t & Ht & HS).
    unfold acc_before, squash. by rewrite Ht, HS.
Qed.

Lemma squash_lookup_inv layers (k : nat) t :
  squash layers !! k = Some t →
  ∃ l, layers !! k = Some l ∧ t = squash_layer k l (acc_before layers k).
Proof.
  intros Ht. assert (k < length layers)%nat as Hlt.
  { apply lookup_lt_Some in Ht. unfold squash in Ht.
    by rewrite squash_from_length in Ht. }
  destruct (lookup_lt_is_Some_2 _ _ Hlt) as [l Hl].
  exists l. split; [done|]. rewrite (squash_lookup _ _ _ Hl) in Ht. by simplify_eq.
Qed.

Lemma acc_before_S layers (k : nat) t :
  squash layers !! k = Some t → acc_before layers (S k) = t.
Proof. intros Ht. unfold acc_before. by rewrite Ht. Qed.

(** A property of the accumulator that every layer after [a] preserves
    holds at every index from [a] on. *)
Lemma squash_persists (Q : gmap Path TreeNode → Prop) layers a b ta tb :
  (∀ m lm acc, (a < m ≤ b)%nat → layers !! m = Some lm → Q acc →
     Q (squash_layer m lm acc)) →
  (a ≤ b)%nat → squash layers !! a = Some ta → Q ta →
  squash layers !! b = Some tb → Q tb.
Proof.
  revert tb. induction b as [|b IH]; intros tb Hstep Hab Ha HQ Hb.
  - assert (a = 0)%nat as -> by lia. by simplify_eq.
  - destruct (decide (a = S b)) as [->|Hne]; [by simplify_eq|].
    destruct (squash_lookup_inv _ _ _ Hb) as (l & Hl & ->).
    assert (is_Some (squash layers !! b)) as [t Ht].
    { apply lookup_lt_is_Some. apply lookup_lt_Some in Hb. lia. }
    rewrite (acc_before_S _ _ _ Ht).
    apply Hstep; [lia|done|].
    apply IH; [|lia|done..].
    intros m lm acc Hm. apply Hstep. lia.
Qed.

(** *** One layer and one path *)

Lemma squash_layer_added i l acc p n :
  wf l → l !! p = Some n → is_marker n = false → ¬ hides l p →
  squash_layer i l acc !! p = Some (retarget i p n).
Proof.
  intros Hwf Hp Hm Hh. rewrite squash_layer_lookup by done.
  unfold merged, staged. by rewrite decide_False, Hp, Hm.
Qed.

Lemma squash_layer_survives i l acc p :
  wf l → is_Some (acc !! p) → ¬ removes l p →
  is_Some (squash_layer i l acc !! p).
Proof.
  intros Hwf Hacc Hrm. rewrite squash_layer_lookup by done. unfold merged, staged, kept.
  rewrite decide_False by (intros ?; apply Hrm; by left).
  assert ((∀ n, l !! p = Some n → is_marker n = true) →
          ¬ (resets l p ∨ shadows l p)) as Hkeep.
  { intros Hmark Hrs. apply Hrm. right. split; [|done].
    intros (n & Hn & Hm). rewrite (Hmark n Hn) in Hm. done. }
  destruct (l !! p) as [n|] eqn:Hl.
  - destruct (is_marker n) eqn:Hm; [|by eexists].
    rewrite decide_False; [done|]. apply Hkeep. by intros ? [= <-].
  - rewrite decide_False; [done|]. apply Hkeep. by intros ? [=].
Qed.

Lemma squash_layer_stays_absent i l acc p :
  wf l → acc !! p = None → ¬ adds l p → squash_layer i l acc !! p = None.
Proof.
  intros Hwf Hacc Hadd. rewrite squash_layer_lookup by done. unfold merged, staged, kept.
  case_decide; [done|].
  destruct (l !! p) as [n|] eqn:Hl.
  - destruct (is_marker n) eqn:Hm; [by case_decide|].
    destruct Hadd. by exists n.
  - by case_decide.
Qed.

Lemma squash_layer_reset i l acc p :
  wf l → resets l p → ¬ adds l p → squash_layer i l acc !! p = None.
Proof.
  intros Hwf Hr Hadd. rewrite squash_layer_lookup by done. unfold merged, staged, kept.
  case_decide; [done|].
  destruct (l !! p) as [n|] eqn:Hl.
  - destruct (is_marker n) eqn:Hm; [rewrite decide_True; [done|by left]|].
    destruct Hadd. by exists n.
  - rewrite decide_True; [done|by left].
Qed.

(** *** Squash trees are trees *)

Lemma parent_snoc k (x : string) : parent (k ++ [x]) = k.
Proof. unfold parent. apply removelast_last. Qed.

Lemma parent_below k : k ≠ [] → below (parent k) k.
Proof.
  destruct k as [|x k] using rev_ind; [done|]. intros _. rewrite parent_snoc.
  split; [by exists [x]|]. intros Heq. apply (f_equal length) in Heq.
  rewrite length_app in Heq. simpl in Heq. lia.
Qed.

Lemma below_trans_prefix d q k : below d q → q `prefix_of` k → below d k.
Proof.
  intros [[s ->] Hne] [s' ->]. split; [exists (s ++ s'); by rewrite app_assoc|].
  intros Heq. rewrite <- app_assoc in Heq.
  rewrite <- (app_nil_r d) in Heq at 1. apply app_inv_head in Heq.
  symmetry in Heq. apply app_eq_nil in Heq as [-> _]. by rewrite app_nil_r in Hne.
Qed.

Lemma hides_parent l k : k ≠ [] → hides l (parent k) → hides l k.
Proof.
  intros Hk (w & n & Hw & Hn & Ht). exists w, n. split; [done|].
  split; [done|]. cbn [fst] in *. destruct (whiteout_target w) as [q|]; [|done].
  etrans; [done|]. by apply parent_below.
Qed.

Lemma resets_parent l k : k ≠ [] → resets l (parent k) → resets l k.
Proof.
  intros Hk (o & n & Ho & Hn & Hb). exists o, n. split; [done|].
  split; [done|]. eapply below_trans_prefix; [done|]. by apply parent_below.
Qed.

Lemma shadows_parent l k : k ≠ [] → shadows l (parent k) → shadows l k.
Proof.
  intros Hk (o & n & Ho & Hn & Hb). exists o, n. split; [done|].
  split; [done|]. eapply below_trans_prefix; [done|]. by apply parent_below.
Qed.

Lemma inserted_entries_wf i l es acc :
  wf l → wf acc → enumerates es l → wf (inserted_entries i es acc).
Proof.
  intros Hwf Hacc Hes k n Hk.
  rewrite (inserted_entries_lookup i l) in Hk by done. unfold staged in Hk.
  assert (∀ m, kept l acc k = Some m →
    k ≠ [] ∧ (parent k = [] ∨ inserted_entries i es acc !! parent k = Some Directory))
    as Hkept.
  { unfold kept. intros m Hm. case_decide as Hrs; [done|].
    destruct (Hacc _ _ Hm) as [Hne Hpar]. split; [done|].
    destruct Hpar as [?|Hdir]; [by left|]. right.
    rewrite (inserted_entries_lookup i l) by done. unfold staged, kept.
    assert (¬ (resets l (parent k) ∨ shadows l (parent k))) as Hrs'.
    { intros [?|?]; apply Hrs; [left; by apply resets_parent
                                |right; by apply shadows_parent]. }
    destruct (l !! parent k) as [m'|] eqn:Hl; [|by rewrite decide_False].
    destruct (is_marker m') eqn:Hmk; [by rewrite decide_False|].
    destruct m'; try done.
    - destruct Hrs. right. eexists _, _. split; [done|]. split; [done|].
      by apply parent_below.
    - destruct Hrs. right. eexists _, _. split; [done|]. split; [done|].
      by apply parent_below. }
  destruct (l !! k) as [m|] eqn:Hl; [|by eapply Hkept].
  destruct (is_marker m) eqn:Hm; [by eapply Hkept|].
  destruct (Hwf _ _ Hl) as [Hne Hpar]. split; [done|].
  destruct Hpar as [?|Hdir]; [by left|]. right.
  rewrite (inserted_entries_lookup i l) by done. unfold staged.
  by rewrite Hdir.
Qed.

Lemma RemovePath_wf p t : wf t → wf (RemovePath p t).
Proof.
  intros Hwf k n. rewrite RemovePath_lookup. case_decide as Hpre; [done|].
  intros Hk. destruct (Hwf _ _ Hk) as [Hne Hpar]. split; [done|].
  destruct Hpar as [?|Hdir]; [by left|]. right.
  rewrite RemovePath_lookup, decide_False; [done|].
  intros Hpp. apply Hpre. etrans; [done|]. by apply parent_below.
Qed.

Lemma whiteouts_pass_wf es t : wf t → wf (foldl apply_whiteout t es).
Proof.
  revert t. induction es as [|e es IH]; intros t Hwf; [done|].
  cbn [foldl]. apply IH. unfold apply_whiteout.
  destruct (e.2); try done. destruct (whiteout_target e.1); [|done].
  by apply RemovePath_wf.
Qed.

Lemma squash_layer_wf i l acc : wf l → wf acc → wf (squash_layer i l acc).
Proof.
  intros Hwf Hacc. unfold squash_layer, squash_entries.
  apply whiteouts_pass_wf. apply (inserted_entries_wf i l); [done..|].
  apply map_to_list_enumerates.
Qed.

Lemma wf_empty : wf (∅ : gmap Path TreeNode).
Proof. intros k n. by rewrite lookup_empty. Qed.

Lemma squash_trees_wf layers (idx : nat) t :
  Forall wf layers → squash layers !! idx = Some t → wf t.
Proof.
  intros Hwf. revert t. induction idx as [|idx IH]; intros t Ht;
    destruct (squash_lookup_inv _ _ _ Ht) as (l & Hl & ->);
    (apply squash_layer_wf; [by eapply Forall_lookup in Hwf|]).
  - apply wf_empty.
  - unfold acc_before. destruct (squash layers !! idx) as [t'|] eqn:E; simpl.
    + by apply IH.
    + apply wf_empty.
Qed.

(** Deleting a path that is not in a tree leaves the tree as it is. *)
Lemma RemovePath_absent t p : wf t → p ≠ [] → t !! p = None → RemovePath p t = t.
Proof.
  intros Hwf Hp Habs. apply map_eq. intros k. rewrite RemovePath_lookup.
  case_decide as Hpre; [|done].
  destruct (t !! k) as [n|] eqn:Hk; [|done].
  destruct (decide (p = k)) as [->|Hne]; [congruence|].
  rewrite (wf_ancestor t k n p Hwf Hk) in Habs; done.
Qed.

(** *** Trees grown by the [Add] operations are trees *)

Lemma elem_of_inits k p : k ∈ inits p ↔ k ≠ [] ∧ k `prefix_of` p.
Proof.
  revert k. induction p as [|x r IH]; intros k; simpl.
  - split; [by intros ?%elem_of_nil|]. intros [Hne [s Hs]].
    symmetry in Hs. by apply app_eq_nil in Hs as [? _].
  - rewrite elem_of_cons, list_elem_of_fmap. split.
    + intros [->|(k' & -> & Hk')].
      * split; [done|]. by exists r.
      * apply IH in Hk' as [_ Hpre]. split; [done|]. by apply prefix_cons.
    + intros [Hne [s Hs]]. destruct k as [|y k']; [done|].
      simpl in Hs. injection Hs as <- ->.
      destruct k' as [|z k'']; [by left|]. right.
      exists (z :: k''). split; [done|]. apply IH. split; [done|]. by eexists.
Qed.

Lemma ensure_dirs_lookup qs t k :
  foldl ensure_dir t qs !! k = if decide (k ∈ qs) then Some Directory else t !! k.
Proof.
  revert t. induction qs as [|q qs IH]; intros t; cbn [foldl].
  - rewrite decide_False; [done|]. by intros ?%elem_of_nil.
  - rewrite IH, ensure_dir_insert. destruct (decide (k ∈ qs)) as [Hin|Hin].
    + rewrite decide_True; [done|]. by right.
    + destruct (decide (k = q)) as [->|Hne].
      * rewrite lookup_insert_eq. rewrite decide_True; [done|]. by left.
      * rewrite lookup_insert_ne by done. rewrite decide_False; [done|].
        by intros [?|?]%elem_of_cons.
Qed.

Lemma put_node_lookup p n t k :
  put_node p n t !! k =
    if decide (k = p) then Some n
    else if decide (k ∈ inits (parent p)) then Some Directory
    else if decide (below p k) then None
    else t !! k.
Proof.
  unfold put_node. destruct (decide (k = p)) as [->|Hne].
  - by rewrite lookup_insert_eq.
  - rewrite lookup_insert_ne by done. rewrite ensure_dirs_lookup.
    case_decide; [done|]. apply RemoveChildPaths_lookup.
Qed.

Lemma below_length d k : below d k → (length d < length k)%nat.
Proof.
  intros [[s ->] Hne]. rewrite length_app. destruct s; simpl; [|lia].
  by rewrite app_nil_r in Hne.
Qed.

Lemma put_node_wf p n t : wf t → p ≠ [] → wf (put_node p n t).
Proof.
  intros Hwf Hp k m. rewrite put_node_lookup.
  assert (∀ q, q ≠ [] → q `prefix_of` parent p →
            put_node p n t !! q = Some Directory) as Hdir.
  { intros q Hq Hpre. rewrite put_node_lookup.
    rewrite decide_False, decide_True; [done|by apply elem_of_inits|].
    intros ->. pose proof (below_length _ _ (parent_below p Hp)) as Hlt.
    apply prefix_length in Hpre. lia. }
  assert (∀ q, q ≠ [] → q `prefix_of` parent p →
            parent q = [] ∨ put_node p n t !! parent q = Some Directory) as Hup.
  { intros q Hq Hpre. destruct (decide (parent q = [])) as [?|Hpq]; [by left|].
    right. apply Hdir; [done|]. etrans; [|done]. by apply parent_below. }
  destruct (decide (k = p)) as [->|Hne].
  { intros _. split; [done|]. destruct (decide (parent p = [])) as [?|Hpp]; [by left|].
    right. by apply Hdir. }
  destruct (decide (k ∈ inits (parent p))) as [Hin|Hin].
  { intros _. apply elem_of_inits in Hin as [Hk Hpre]. split; [done|]. by apply Hup. }
  case_decide as Hb; [done|]. intros Hk.
  destruct (Hwf _ _ Hk) as [Hkne Hpar]. split; [done|].
  destruct Hpar as [?|Hd]; [by left|]. right.
  rewrite put_node_lookup.
  destruct (decide (parent k = p)) as [Heq|Hneq].
  { destruct Hb. rewrite <- Heq. by apply parent_below. }
  case_decide; [done|].
  rewrite decide_False; [done|].
  intros Hbp. apply Hb. eapply below_trans_prefix; [done|]. by apply parent_below.
Qed.

(** Every tree grown from the empty tree by the four [Add] operations is
    well formed. *)
Lemma grown_wf t : grown t → wf t.
Proof.
  induction 1 as [|layer p t t' _ IH H|layer p target t t' _ IH H
                  |p t t' _ IH H|d t t' _ IH H].
  - apply wf_empty.
  - unfold AddFile in H. destruct p; [done|]. simplify_eq. by apply put_node_wf.
  - unfold AddSymlink in H. destruct p; [done|]. simplify_eq. by apply put_node_wf.
  - unfold AddWhiteout in H. destruct p; [done|]. simplify_eq. by apply put_node_wf.
  - unfold AddOpaqueWhiteout in H. simplify_eq. apply put_node_wf; [done|].
    by intros [? ?]%app_eq_nil.
Qed.

Lemma acc_before_wf layers (idx : nat) : Forall wf layers → wf (acc_before layers idx).
Proof.
  intros Hwf. destruct idx as [|idx]; simpl; [apply wf_empty|].
  destruct (squash layers !! idx) as [t|] eqn:E; simpl; [|apply wf_empty].
  by eapply squash_trees_wf.
Qed.

Lemma whiteout_target_nonempty k q : whiteout_target k = Some q → q ≠ [].
Proof.
  unfold whiteout_target. destruct (last k) as [wn|]; [|done].
  destruct (strip_prefix whiteout_prefix wn) as [name|]; [|done].
  intros [= <-]. by intros [? ?]%app_eq_nil.
Qed.

(** *** Paths across layers *)

(** C2, as the code has it. Let layer [i] add the path [p] without
    whiting it out itself, let layer [j > i] white [p] out, and let no
    layer between them remove [p].  Then [p] is in the squash tree of every
    index from [i] up to [j], it is absent at [j], and it stays absent at
    every later index up to which no layer adds [p] again.  A whiteout
    whose path is not in the accumulator when its turn comes, whichever
    whiteouts of the layer went before it, leaves the accumulator as it
    is. *)
Theorem whiteout_removes_added_path
    (layers : list (gmap Path TreeNode)) (i j : nat)
    (li lj : gmap Path TreeNode) (p : Path) :
  Forall wf layers →
  layers !! i = Some li → layers !! j = Some lj → (i < j)%nat →
  adds li p → ¬ hides li p →
  whites_out lj p →
  (∀ (m : nat) lm, (i < m < j)%nat → layers !! m = Some lm → ¬ removes lm p) →
  (∀ (a : nat) t, (i ≤ a < j)%nat → squash layers !! a = Some t → is_Some (t !! p)) ∧
  (∀ (a : nat) t, (j ≤ a)%nat → squash layers !! a = Some t →
     (∀ (m : nat) lm, (j < m ≤ a)%nat → layers !! m = Some lm → ¬ adds lm p) →
     t !! p = None) ∧
  (∀ (a : nat) la (done_ : list entry) e q,
     layers !! a = Some la → e.2 = Whiteout → whiteout_target e.1 = Some q →
     let acc := foldl apply_whiteout
                  (inserted_entries a (map_to_list la) (acc_before layers a)) done_ in
     acc !! q = None → apply_whiteout acc e = acc).
Proof.
  intros Hwf Hli Hlj Hij (n & Hn & Hm) Hnh Hw Hmid.
  assert (∀ (m : nat) lm, layers !! m = Some lm → wf lm) as Hwfl.
  { intros m lm Hl. by eapply Forall_lookup in Hwf. }
  split; [|split].
  - intros a t Ha Ht.
    pose proof (squash_lookup _ _ _ Hli) as Hti.
    eapply (squash_persists (λ t, is_Some (t !! p)) layers i a);
      [|lia|exact Hti| |exact Ht].
    + intros m lm acc Hma Hl Hacc. apply squash_layer_survives; eauto.
      apply (Hmid m lm); [lia|done].
    + rewrite (squash_layer_added _ _ _ _ n); eauto.
  - intros a t Ha Ht Hlater.
    pose proof (squash_lookup _ _ _ Hlj) as Htj.
    eapply (squash_persists (λ t, t !! p = None) layers j a);
      [|lia|exact Htj| |exact Ht].
    + intros m lm acc Hma Hl Hacc. apply squash_layer_stays_absent; eauto.
    + apply squash_layer_hidden. by apply whites_out_hides.
  - intros a la done_ e q Hla He Hq acc Habs.
    unfold apply_whiteout. rewrite He, Hq.
    apply RemovePath_absent; [|by eapply whiteout_target_nonempty|done].
    apply whiteouts_pass_wf. apply (inserted_entries_wf a la).
    + by eapply Hwfl.
    + by apply acc_before_wf.
    + apply map_to_list_enumerates.
Qed.

(** C2, as the claim states it, fails: [/a] is added by layer 0 and
    whited out by layer 1 with no layer between them, and yet it is in the
    squash tree of index 2, because layer 2 adds it again. *)
Lemma readded_path_is_back_after_whiteout :
  Forall wf Fixtures.add_whiteout_add ∧
  (∃ l0 l1, Fixtures.add_whiteout_add !! 0%nat = Some l0 ∧
            Fixtures.add_whiteout_add !! 1%nat = Some l1 ∧
            adds l0 ["a"] ∧ whites_out l1 ["a"]) ∧
  ∃ t, squash Fixtures.add_whiteout_add !! 2%nat = Some t ∧
       t !! ["a"] = Some (RegularFile (mkReference 2 "/a")).
Proof.
  split; [by apply (bool_decide_unpack _); vm_compute|]. split.
  - eexists _, _. split; [reflexivity|]. split; [reflexivity|].
    split; by apply (bool_decide_unpack _); vm_compute.
  - eexists. split; [reflexivity|]. by vm_compute.
Qed.

(** C3. Let layer [j] carry an opaque whiteout in the directory [d] and
    let [p] lie under [d].  Then [p] is absent from the squash tree of
    index [j] and of every later index up to which no layer, [j] included,
    adds [p]; and a node that layer [j] itself, or a later layer, adds at
    [p] (and does not white out) is in the squash tree of that layer's
    index as the layer has it: the reset came first. *)
Theorem opaque_whiteout_resets_directory
    (layers : list (gmap Path TreeNode)) (j : nat) (lj : gmap Path TreeNode)
    (d p : Path) :
  Forall wf layers →
  layers !! j = Some lj → opaque_in lj d → below d p →
  (∀ (a : nat) t, (j ≤ a)%nat → squash layers !! a = Some t →
     (∀ (m : nat) lm, (j ≤ m ≤ a)%nat → layers !! m = Some lm → ¬ adds lm p) →
     t !! p = None) ∧
  (∀ (m : nat) lm n t, (j ≤ m)%nat → layers !! m = Some lm →
     lm !! p = Some n → is_marker n = false → ¬ hides lm p →
     squash layers !! m = Some t → t !! p = Some (retarget m p n)).
Proof.
  intros Hwf Hlj (o & m & Ho & -> & Hd) Hb.
  assert (∀ (m : nat) lm, layers !! m = Some lm → wf lm) as Hwfl.
  { intros a la Hl. by eapply Forall_lookup in Hwf. }
  assert (resets lj p) as Hr.
  { exists o, OpaqueWhiteout. split; [done|]. split; [done|]. cbn [fst]. by rewrite Hd. }
  pose proof (squash_lookup _ _ _ Hlj) as Htj.
  split.
  - intros a t Ha Ht Hnone.
    eapply (squash_persists (λ t, t !! p = None) layers j a);
      [|lia|exact Htj| |exact Ht].
    + intros a' lm acc Hma Hl Hacc.
      apply squash_layer_stays_absent; [by eapply Hwfl|done|].
      apply (Hnone a' lm); [lia|done].
    + apply squash_layer_reset; [by eapply Hwfl|done|].
      apply (Hnone j lj); [lia|done].
  - intros a la n t Ha Hla Hn Hm Hh Ht.
    rewrite (squash_lookup _ _ _ Hla) in Ht. simplify_eq.
    apply squash_layer_added; eauto.
Qed.

(** *** The theorems on the fixtures *)

Local Ltac by_computing := apply (bool_decide_unpack _); vm_compute; exact I.

Lemma squash_trees_hold_no_markers_witness :
  RegularFile (mkReference 2 "/really/nested/file-3.txt") ≠ Whiteout ∧
  RegularFile (mkReference 2 "/really/nested/file-3.txt") ≠ OpaqueWhiteout.
Proof.
  apply (squash_trees_hold_no_markers Fixtures.image_simple 2
           (final_squash Fixtures.image_simple)
           ["really"; "nested"; "file-3.txt"]).
  - right. reflexivity.
  - vm_compute. reflexivity.
Defined.

Lemma whiteout_removes_added_path_witness :
  (∀ t, squash Fixtures.add_then_whiteout !! 1%nat = Some t → is_Some (t !! ["a"])) ∧
  (∀ t, squash Fixtures.add_then_whiteout !! 3%nat = Some t → t !! ["a"] = None).
Proof.
  destruct (whiteout_removes_added_path Fixtures.add_then_whiteout 0 2
              (Fixtures.tree_of [AddFile 0 ["a"]])
              (Fixtures.tree_of [AddWhiteout [".wh.a"]]) ["a"])
    as (Hin & Hout & _).
  - by_computing.
  - reflexivity.
  - reflexivity.
  - lia.
  - by_computing.
  - by_computing.
  - by_computing.
  - intros m lm Hm Hl. assert (m = 1)%nat as -> by lia.
    apply (inj Some) in Hl. subst lm. by_computing.
  - split.
    + intros t Ht. apply (Hin 1%nat t); [lia|exact Ht].
    + intros t Ht. apply (Hout 3%nat t); [lia|exact Ht|].
      intros m lm Hm Hl. assert (m = 3)%nat as -> by lia.
      apply (inj Some) in Hl. subst lm. by_computing.
Defined.

Lemma opaque_whiteout_resets_directory_witness :
  (∀ t, squash Fixtures.opaque_root !! 2%nat = Some t → t !! ["a"] = None) ∧
  (∀ t, squash Fixtures.opaque_root !! 2%nat = Some t →
     t !! ["b"; "nested"] = Some (RegularFile (mkReference 2 "/b/nested"))).
Proof.
  assert (Forall wf Fixtures.opaque_root) as Hwf by by_computing.
  assert (opaque_in (Fixtures.tree_of [AddOpaqueWhiteout []; AddFile 2 ["b"; "nested"]]) [])
    as Hop by by_computing.
  split.
  - intros t Ht.
    destruct (opaque_whiteout_resets_directory Fixtures.opaque_root 2 _ [] ["a"]
                Hwf eq_refl Hop) as [Habs _]; [by_computing|].
    apply (Habs 2%nat t); [lia|exact Ht|].
    intros m lm Hm Hl. assert (m = 2)%nat as -> by lia.
    apply (inj Some) in Hl. subst lm. by_computing.
  - intros t Ht.
    destruct (opaque_whiteout_resets_directory Fixtures.opaque_root 2 _ []
                ["b"; "nested"] Hwf eq_refl Hop) as [_ Hkeep]; [by_computing|].
    apply (Hkeep 2%nat
             (Fixtures.tree_of [AddOpaqueWhiteout []; AddFile 2 ["b"; "nested"]])
             (RegularFile (mkReference 2 "/b/nested")) t);
      [lia|reflexivity|vm_compute; reflexivity|reflexivity|by_computing|exact Ht].
Defined.

Lemma squash_layer_whiteout_wins_order_free_idempotent_witness :
  let l := Fixtures.add_and_whiteout in
  let acc := final_squash Fixtures.opaque_root in
  squash_layer 3 l acc !! ["a"] = None ∧
  squash_entries 3 (reverse (map_to_list l)) acc = squash_layer 3 l acc ∧
  squash_layer 3 l (squash_layer 3 l acc) = squash_layer 3 l acc.
Proof.
  intros l acc.
  destruct (squash_layer_whiteout_wins_order_free_idempotent
              3 l acc ["a"] (reverse (map_to_list l))) as (H1 & H2 & H3).
  - by_computing.
  - split; [|split].
    + apply H1; by_computing.
    + apply H2. apply reverse_Permutation.
    + exact H3.
Defined.

(** The squash trees the integration test expects of [image-simple]: the
    first file; both files; both files with the nested third, and no
    opaque marker. *)
Example image_simple_squashed :
  map_to_list <$> squash Fixtures.image_simple =
  map_to_list <$>
  [ Fixtures.tree_of [AddFile 0 ["somefile-1.txt"]];
    Fixtures.tree_of [AddFile 0 ["somefile-1.txt"]; AddFile 1 ["somefile-2.txt"]];
    Fixtures.tree_of [AddFile 0 ["somefile-1.txt"]; AddFile 1 ["somefile-2.txt"];
                      AddFile 2 ["really"; "nested"; "file-3.txt"]] ].
Proof. vm_compute. reflexivity. Qed.

(** The scenario of the spec: [/a]; [/a] and [/b]; [/b] and [/b/nested]. *)
Example opaque_root_squashed :
  dom <$> squash Fixtures.opaque_root =
  [ {[ ["a"] ]}; {[ ["a"]; ["b"] ]}; {[ ["b"]; ["b"; "nested"] ]} ].
Proof.
  apply (list_eq_Forall2 _). repeat constructor;
    apply (bool_decide_unpack _); vm_compute; exact I.
Qed.

End Squasher.


(** ** The bytes and the descriptors of the deferred reader *)
Section ReaderContents.
Import GoRuntime FilePkg.

Lemma take_own_length {A} (n : nat) (l : list A) :
  take (length (take n l)) l = take n l.
Proof.
  rewrite length_take. destruct (decide (n ≤ length l)%nat).
  - by rewrite Nat.min_l.
  - rewrite Nat.min_r by lia. by rewrite !take_ge by lia.
Qed.

Lemma File_Read_bytes fd len w bs err w' f :
  File_Read fd len w = ((bs, err), w') → files w !! fd = Some f →
  bs = take (length bs) (drop (Z.to_nat (f_off f)) (f_data f)).
Proof.
  unfold File_Read. intros H Hf. rewrite Hf in H.
  destruct (f_closed f); [by simplify_eq|].
  destruct (len <=? 0); [by simplify_eq|].
  destruct (next_fault w); try (by simplify_eq);
    (destruct (_ <=? 0); simplify_eq; [done|by rewrite take_own_length]).
Qed.

Lemma Read_bytes d l len w bs err d' w' f :
  reader d = Some l → files w !! lr_R l = Some f →
  Read d len w = ((bs, err), d', w') →
  bs = take (length bs) (drop (Z.to_nat (f_off f)) (f_data f)).
Proof.
  intros Hr Hf. unfold Read, open_on_demand. rewrite Hr. intros H.
  apply read_and_release_result in H as (err0 & l1 & w1 & HL & _).
  unfold LimitedReader_Read in HL. destruct (lr_N l <=? 0); [by simplify_eq|].
  destruct (File_Read _ _ w) as [[bs1 err1] w2] eqn:E.
  apply (File_Read_bytes _ _ _ _ _ _ f) in E; [|done]. by simplify_eq.
Qed.

Lemma Read_streaming_bytes data d w k len bs err d' w' :
  0 ≤ start d → no_io_error w → streaming data d w k → 0 < len →
  Read d len w = ((bs, err), d', w') →
  bs = take (length bs) (drop (Z.to_nat (start d + k)) data).
Proof.
  intros Hstart Hio Hs Hlen HR.
  destruct (Read_streaming data d w k len Hstart Hio Hs Hlen)
    as (bs' & err' & d1 & w1 & HR' & _ & Hst & Hsz & Hs1 & _ & _).
  rewrite HR in HR'. simplify_eq.
  destruct Hs as (fd & f & Hfile & Hreader & Hf & Hdata & Hk & Hstate).
  pose proof (Read_bytes d _ len w _ _ _ _ f Hreader Hf HR) as Hb.
  rewrite Hdata in Hb. destruct (f_closed f).
  - destruct Hs1 as (_ & _ & _ & _ & _ & _ & Hk1 & _).
    assert (in_range d1 (Z.of_nat (length data)) = in_range d (Z.of_nat (length data)))
      as Hr by (unfold in_range; by rewrite Hst, Hsz).
    assert (length bs' = 0)%nat as Hz by lia.
    destruct bs'; [|done]. by rewrite take_0.
  - by rewrite <- Hstate.
Qed.

Lemma bytes_of_cons r rs : bytes_of (r :: rs) = r.1 ++ bytes_of rs.
Proof. done. Qed.

Lemma reads_streaming_bytes data bufs d w k :
  0 ≤ start d → no_io_error w → streaming data d w k →
  Forall (λ b, 0 < b) bufs →
  in_range d (Z.of_nat (length data)) - k ≤ Z.of_nat (length bufs) →
  bytes_of (reads bufs d w).1.1 =
    take (Z.to_nat (in_range d (Z.of_nat (length data)) - k))
         (drop (Z.to_nat (start d + k)) data).
Proof.
  intros Hstart Hio Hs Hbufs. revert d w k Hstart Hio Hs.
  induction Hbufs as [|len bufs Hlen _ IH]; intros d w k Hstart Hio Hs Hn; simpl.
  - destruct Hs as (fd & f & _ & _ & _ & _ & Hk & _). simpl in Hn.
    replace (Z.to_nat _) with 0%nat by lia. by rewrite take_0.
  - destruct (Read d len w) as [[[bs err] d1] w1] eqn:HR.
    pose proof (Read_streaming_bytes _ _ _ _ _ _ _ _ _ Hstart Hio Hs Hlen HR) as Hbs.
    destruct (Read_streaming data d w k len Hstart Hio Hs Hlen)
      as (bs' & err' & d1' & w1' & HR' & Hio1 & Hst1 & Hsz1 & Hs1 & Herr & Hprog).
    rewrite HR in HR'. symmetry in HR'. simplify_eq.
    assert (in_range d1 (Z.of_nat (length data)) = in_range d (Z.of_nat (length data)))
      as Hr by (unfold in_range; by rewrite Hst1, Hsz1).
    assert (in_range d (Z.of_nat (length data)) - (k + Z.of_nat (length bs))
            ≤ Z.of_nat (length bufs)) as Hn1.
    { simpl in Hn. destruct (decide (k < in_range d (Z.of_nat (length data)))) as [Hlt|Hge].
      - destruct (Hprog Hlt). lia.
      - lia. }
    assert (0 ≤ k + Z.of_nat (length bs) ≤ in_range d (Z.of_nat (length data))) as Hb.
    { destruct Hs1 as (_ & _ & _ & _ & _ & _ & Hk1 & _). by rewrite Hr in Hk1. }
    assert (0 ≤ k) as Hk0 by (destruct Hs as (_ & _ & _ & _ & _ & _ & ? & _); lia).
    rewrite <- Hr in Hn1. rewrite <- Hst1 in Hstart.
    specialize (IH d1 w1 _ Hstart Hio1 Hs1 Hn1).
    destruct (reads bufs d1 w1) as [[rs d2] w2]. cbn [fst snd] in *.
    rewrite bytes_of_cons, IH, Hr, Hst1. cbn [fst]. rewrite Hbs at 1.
    replace (Z.to_nat (start d + (k + Z.of_nat (length bs))))
      with (Z.to_nat (start d + k) + length bs)%nat by lia.
    rewrite <- drop_drop, take_take_drop. f_equal. lia.
Qed.

Lemma reads_fresh_range
    (p : string) (s z : Z) (data : list byte) (bufs : list Z) (w : World) :
  0 ≤ s → 0 ≤ z →
  disk w !! p = Some data → no_io_error w →
  Forall (λ b, 0 < b) bufs →
  Z.min z (Z.max 0 (Z.of_nat (length data) - s)) ≤ Z.of_nat (length bufs) →
  let d := newDeferredPartialReadCloser p s z in
  bytes_of (reads bufs d w).1.1 = range_bytes d data ∧
  range_bytes d data = take (Z.to_nat z) (drop (Z.to_nat s) data).
Proof.
  intros Hs Hz Hdisk Hio Hbufs Hn d. split.
  - unfold range_bytes. destruct bufs as [|len bufs].
    { subst d. unfold in_range. cbn [size start newDeferredPartialReadCloser].
      cbn [length] in Hn.
      replace (Z.to_nat (Z.min z _)) with 0%nat by lia. by rewrite take_0. }
    destruct (open_on_demand_fresh p s z data w Hdisk Hio Hs Hz)
      as (d1 & l1 & w1 & Ho & Hr & Hst & Hsz & Hio1 & Hstr).
    assert (reads (len :: bufs) d w = reads (len :: bufs) d1 w1) as E.
    { simpl. by rewrite (Read_after_open d w d1 l1 w1 len Ho Hr). }
    rewrite E.
    assert (in_range d1 (Z.of_nat (length data)) = in_range d (Z.of_nat (length data))) as Ha.
    { unfold in_range. by rewrite Hst, Hsz. }
    rewrite <- Hst in Hs.
    rewrite (reads_streaming_bytes data (len :: bufs) d1 w1 0 Hs Hio1 Hstr Hbufs).
    + rewrite Ha, Hst, Z.sub_0_r, Z.add_0_r. done.
    + rewrite Ha. subst d. unfold in_range.
      cbn [size start newDeferredPartialReadCloser]. lia.
  - subst d. unfold range_bytes, in_range.
    cbn [size start newDeferredPartialReadCloser].
    destruct (decide (z ≤ Z.max 0 (Z.of_nat (length data) - s))).
    + by rewrite Z.min_l by lia.
    + rewrite Z.min_r by lia. rewrite !take_ge; [done| |]; rewrite length_drop; lia.
Qed.

(** X1. The reads of a fresh reader hand out the bytes of the range, in
    order: for a path that exists, a start and a size that are not
    negative and a system that never fails (it may cut reads short), the
    bytes stored by a run of [Read] calls with non-empty buffers, taken
    together, are the bytes of the file from [start] on, [size] of them or
    as many as the file has, once the run has at least as many calls as
    the range has bytes. *)
Theorem reads_hand_out_the_range
    (p : string) (s z : Z) (data : list byte) (bufs : list Z) (w : World) :
  0 ≤ s → 0 ≤ z →
  disk w !! p = Some data → no_io_error w →
  Forall (λ b, 0 < b) bufs →
  Z.min z (Z.max 0 (Z.of_nat (length data) - s)) ≤ Z.of_nat (length bufs) →
  bytes_of (reads bufs (newDeferredPartialReadCloser p s z) w).1.1
    = take (Z.to_nat z) (drop (Z.to_nat s) data).
Proof.
  intros Hs Hz Hdisk Hio Hbufs Hn.
  destruct (reads_fresh_range p s z data bufs w Hs Hz Hdisk Hio Hbufs Hn)
    as [Hrange Htake].
  by rewrite Hrange.
Qed.

Lemma Read_at_end data d w k len fd f :
  no_io_error w → 0 < len → 0 ≤ start d →
  file d = Some fd → reader d = Some (mkLimited fd (size d - k)) →
  files w !! fd = Some f → f_data f = data →
  k = in_range d (Z.of_nat (length data)) →
  (f_closed f = false → f_off f = start d + k) →
  ∃ err d' w', Read d len w = (([], err), d', w') ∧ released d' w' ∧
    (f_closed f = false → err = None) ∧
    (f_closed f = true →
       err = Some (if size d - k <=? 0 then io_EOF
                   else PathError "read" (f_name f) ErrClosed)).
Proof.
  intros Hio Hlen Hstart Hfile Hreader Hf Hdata Hk Hoff.
  unfold Read, open_on_demand. rewrite Hreader.
  unfold read_and_release, LimitedReader_Read. cbn [lr_N lr_R].
  assert (fd < length (files w))%nat as Hlt by (by eapply lookup_lt_Some).
  unfold in_range in Hk.
  destruct (size d - k <=? 0) eqn:HN.
  - cbn [errors_Is_EOF]. rewrite Hfile. destruct (f_closed f) eqn:Hc.
    + unfold File_Close. rewrite Hf, Hc. cbn.
      eexists _, _, _. split; [done|]. split; [by exists fd, f|]. done.
    + destruct (File_Close_open fd w f Hf Hc (Hio _)) as (w' & -> & Hfa & Hfi). cbn.
      eexists _, _, _. split; [done|]. split; [|done].
      eexists fd, _. cbn. split; [done|].
      by rewrite Hfi, list_lookup_insert_eq.
  - apply Z.leb_gt in HN.
    set (len' := if size d - k <? len then size d - k else len).
    assert (0 < len') as Hlen'.
    { subst len'. destruct (_ <? len) eqn:C; [lia|]. apply Z.ltb_ge in C. lia. }
    destruct (f_closed f) eqn:Hc.
    + unfold File_Read. rewrite Hf, Hc. cbn.
      eexists _, _, _. split; [done|]. split; [by exists fd, f|]. done.
    + destruct (File_Read_open fd len' w f Hf Hc Hlen' (Hio _))
        as (bs & err & w1 & -> & Hfa & Hres); [rewrite Hoff by done; lia|].
      rewrite Hdata, Hoff in Hres by done.
      rewrite decide_True in Hres by lia.
      destruct Hres as (-> & -> & Hfi). cbn. rewrite Hfile.
      assert (files w1 !! fd = Some f) as Hf1 by (by rewrite Hfi).
      assert (no_io_error w1) as Hio1 by (unfold no_io_error; by rewrite Hfa).
      destruct (File_Close_open fd w1 f Hf1 Hc (Hio1 _)) as (w' & -> & Hfa' & Hfi').
      cbn. eexists _, _, _. split; [done|]. split; [|done].
      eexists fd, _. cbn. split; [done|].
      by rewrite Hfi', Hfi, list_lookup_insert_eq.
Qed.

Lemma reads_hand_out_the_range_witness :
  bytes_of (reads [2; 2; 2; 2] Fixtures.overlong_reader Fixtures.calm_world).1.1
    = [x04; x05].
Proof.
  apply (reads_hand_out_the_range "layer.tar" 3 10 Fixtures.five_bytes
           [2; 2; 2; 2] Fixtures.calm_world).
  - lia.
  - lia.
  - reflexivity.
  - intros i. simpl. discriminate.
  - repeat constructor.
  - simpl. lia.
Defined.

Lemma end_of_range_same d d' data err :
  start d' = start d → size d' = size d →
  end_of_range d' data err ↔ end_of_range d data err.
Proof. intros Hst Hsz. unfold end_of_range. by rewrite Hst, Hsz. Qed.

Lemma ReadAll_released data bufs d w k :
  0 ≤ start d → no_io_error w → streaming data d w k → released d w →
  Forall (λ b, 0 < b) bufs → bufs ≠ [] →
  ∃ err d' w', ReadAll bufs d w = (Some ([], err), d', w') ∧
    end_of_range d data err ∧ released d' w'.
Proof.
  intros Hstart Hio Hs (fd' & f' & Hfile' & Hf' & Hc) Hbufs Hne.
  destruct bufs as [|len bufs]; [done|]. apply Forall_cons in Hbufs as [Hlen _].
  destruct Hs as (fd & f & Hfile & Hreader & Hf & Hdata & Hk & Hstate).
  assert (fd' = fd) as -> by congruence. assert (f' = f) as -> by congruence.
  rewrite Hc in Hstate.
  destruct (Read_at_end data d w k len fd f Hio Hlen Hstart Hfile Hreader Hf Hdata)
    as (err & d' & w' & HR & Hrel & _ & Herr); [done|by rewrite Hc|].
  cbn [ReadAll]. rewrite HR, (Herr Hc).
  eexists _, _, _. split; [done|]. split; [|done].
  unfold end_of_range, in_range in *. destruct (size d - k <=? 0) eqn:HN.
  - apply Z.leb_le in HN. rewrite decide_True by lia. by rewrite decide_True.
  - apply Z.leb_gt in HN. rewrite decide_False by lia. rewrite decide_False by done.
    by eexists.
Qed.

Lemma ReadAll_streaming data bufs d w k :
  0 ≤ start d → no_io_error w → streaming data d w k →
  Forall (λ b, 0 < b) bufs →
  in_range d (Z.of_nat (length data)) - k + 2 ≤ Z.of_nat (length bufs) →
  ∃ err d' w',
    ReadAll bufs d w =
      (Some (take (Z.to_nat (in_range d (Z.of_nat (length data)) - k))
                  (drop (Z.to_nat (start d + k)) data), err), d', w') ∧
    end_of_range d data err ∧ released d' w'.
Proof.
  intros Hstart Hio Hs Hbufs. revert d w k Hstart Hio Hs.
  induction Hbufs as [|len bufs Hlen Hrest IH]; intros d w k Hstart Hio Hs Hn.
  { destruct Hs as (fd & f & _ & _ & _ & _ & Hk & _). cbn [length] in Hn. lia. }
  pose proof Hs as (fd & f & Hfile & Hreader & Hf & Hdata & Hk & Hstate).
  destruct (f_closed f) eqn:Hc.
  { (* released already *)
    destruct (ReadAll_released data (len :: bufs) d w k Hstart Hio Hs)
      as (err & d' & w' & HR & He & Hrel);
      [by exists fd, f|by constructor|done|].
    rewrite HR. replace (Z.to_nat _) with 0%nat by lia. rewrite take_0. eauto 10. }
  destruct (Read_streaming data d w k len Hstart Hio Hs Hlen)
    as (bs & err & d1 & w1 & HR & Hio1 & Hst1 & Hsz1 & Hs1 & Herr & Hprog).
  assert (in_range d1 (Z.of_nat (length data)) = in_range d (Z.of_nat (length data)))
    as Hr by (unfold in_range; by rewrite Hst1, Hsz1).
  destruct (decide (k < in_range d (Z.of_nat (length data)))) as [Hlt|Hge].
  - (* bytes left *)
    destruct (Hprog Hlt) as [Hpos ->].
    pose proof (Read_streaming_bytes _ _ _ _ _ _ _ _ _ Hstart Hio Hs Hlen HR) as Hbs.
    assert (0 ≤ k + Z.of_nat (length bs) ≤ in_range d (Z.of_nat (length data))) as Hb.
    { destruct Hs1 as (_ & _ & _ & _ & _ & _ & Hk1 & _). by rewrite Hr in Hk1. }
    destruct (IH d1 w1 (k + Z.of_nat (length bs))) as (e & d2 & w2 & HA & He & Hrel);
      [by rewrite Hst1|done|done|rewrite Hr; rewrite length_cons in Hn; lia|].
    assert (bs ++ take (Z.to_nat (in_range d1 (Z.of_nat (length data)) -
                                  (k + Z.of_nat (length bs))))
                       (drop (Z.to_nat (start d1 + (k + Z.of_nat (length bs)))) data)
            = take (Z.to_nat (in_range d (Z.of_nat (length data)) - k))
                   (drop (Z.to_nat (start d + k)) data)) as Heq.
    { rewrite Hr, Hst1. rewrite Hbs at 1.
      replace (Z.to_nat (start d + (k + Z.of_nat (length bs))))
        with (Z.to_nat (start d + k) + length bs)%nat by lia.
      rewrite <- drop_drop, take_take_drop.
      replace (length bs + Z.to_nat (in_range d (Z.of_nat (length data)) -
                                     (k + Z.of_nat (length bs))))%nat
        with (Z.to_nat (in_range d (Z.of_nat (length data)) - k)) by lia.
      done. }
    cbn [ReadAll]. rewrite HR, HA, Heq. exists e, d2, w2.
    split; [done|]. split; [|done]. by apply (end_of_range_same d d1).
  - (* at the end of the range with the file still open *)
    assert (k = in_range d (Z.of_nat (length data))) as Hkeq by lia.
    destruct (Read_at_end data d w k len fd f Hio Hlen Hstart Hfile Hreader Hf Hdata Hkeq)
      as (err0 & d1' & w1' & HR' & Hrel & Hnil & _); [by intros _|].
    assert (bs = [] ∧ err0 = err ∧ d1' = d1 ∧ w1' = w1) as (-> & -> & -> & ->)
      by (rewrite HR in HR'; by simplify_eq).
    clear HR'. rewrite (Hnil Hc) in *.
    cbn [length] in Hs1. rewrite Z.add_0_r in Hs1.
    destruct (ReadAll_released data bufs d1 w1 k) as (e & d2 & w2 & HA & He & Hrel2);
      [by rewrite Hst1|done|done|done|done| |].
    { intros ->. cbn [length] in Hn. lia. }
    cbn [ReadAll]. rewrite HR, HA. eexists _, _, _. split; [|split; [|done]].
    + replace (Z.to_nat _) with 0%nat by lia. by rewrite take_0.
    + by apply (end_of_range_same d d1).
Qed.

Lemma ReadAll_fresh p s z data bufs w :
  0 ≤ s → 0 ≤ z → disk w !! p = Some data → no_io_error w →
  Forall (λ b, 0 < b) bufs →
  Z.min z (Z.max 0 (Z.of_nat (length data) - s)) + 2 ≤ Z.of_nat (length bufs) →
  let d := newDeferredPartialReadCloser p s z in
  ∃ err d' w',
    ReadAll bufs d w = (Some (range_bytes d data, err), d', w') ∧
    end_of_range d data err ∧ released d' w'.
Proof.
  intros Hs Hz Hdisk Hio Hbufs Hn d.
  destruct bufs as [|len bufs]; [cbn [length] in Hn; lia|].
  destruct (open_on_demand_fresh p s z data w Hdisk Hio Hs Hz)
    as (d1 & l1 & w1 & Ho & Hr & Hst & Hsz & Hio1 & Hstr).
  assert (ReadAll (len :: bufs) d w = ReadAll (len :: bufs) d1 w1) as E.
  { cbn [ReadAll]. by rewrite (Read_after_open d w d1 l1 w1 len Ho Hr). }
  assert (in_range d1 (Z.of_nat (length data)) = in_range d (Z.of_nat (length data))) as Ha.
  { unfold in_range. by rewrite Hst, Hsz. }
  destruct (ReadAll_streaming data (len :: bufs) d1 w1 0) as (err & d' & w' & HA & He & Hrel);
    [by rewrite Hst|done|done|done| |].
  { rewrite Ha. subst d. unfold in_range. cbn [size start newDeferredPartialReadCloser]. lia. }
  exists err, d', w'. rewrite E, HA. split; [|split; [|done]].
  - unfold range_bytes. by rewrite Ha, Hst, Z.sub_0_r, Z.add_0_r.
  - by apply (end_of_range_same d d1).
Qed.

(** X2. Reading a fresh reader to the end, as [ioutil.ReadAll] does in
    the integration test: when the range lies within the file and the
    system never fails, the loop returns exactly the [size] bytes from
    [start] on with a nil error, after at most [size + 2] reads, and the
    reader's file is closed when it returns. *)
Theorem ReadAll_returns_the_range
    (p : string) (s z : Z) (data : list byte) (bufs : list Z) (w : World) :
  0 ≤ s → 0 ≤ z → s + z ≤ Z.of_nat (length data) →
  disk w !! p = Some data → no_io_error w →
  Forall (λ b, 0 < b) bufs → z + 2 ≤ Z.of_nat (length bufs) →
  ∃ d' w',
    ReadAll bufs (newDeferredPartialReadCloser p s z) w
      = (Some (take (Z.to_nat z) (drop (Z.to_nat s) data), None), d', w') ∧
    released d' w'.
Proof.
  intros Hs Hz Hfit Hdisk Hio Hbufs Hn.
  destruct (ReadAll_fresh p s z data bufs w Hs Hz Hdisk Hio Hbufs)
    as (err & d' & w' & HA & He & Hrel); [lia|].
  unfold end_of_range in He. cbn [size start newDeferredPartialReadCloser] in He.
  rewrite decide_True in He by lia. subst err.
  assert (range_bytes (newDeferredPartialReadCloser p s z) data
          = take (Z.to_nat z) (drop (Z.to_nat s) data)) as Heq.
  { unfold range_bytes, in_range. cbn [size start newDeferredPartialReadCloser].
    by rewrite Z.min_l by lia. }
  rewrite Heq in HA. by exists d', w'.
Qed.

Lemma ReadAll_returns_the_range_witness :
  ∃ d' w',
    ReadAll [2; 2; 2; 2; 2] Fixtures.inner_reader Fixtures.calm_world
      = (Some ([x02; x03; x04], None), d', w') ∧
    released d' w'.
Proof.
  apply (ReadAll_returns_the_range "layer.tar" 1 3 Fixtures.five_bytes
           [2; 2; 2; 2; 2] Fixtures.calm_world).
  - lia.
  - lia.
  - simpl. lia.
  - reflexivity.
  - intros i. simpl. discriminate.
  - repeat constructor.
  - simpl. lia.
Defined.



(** *** What a reader leaves alone *)

Lemma os_Open_frame p w r w' :
  os_Open p w = (r, w') →
  disk w' = disk w ∧ faults w' = faults w ∧
  (∀ fd, is_Some (files w !! fd) → files w' !! fd = files w !! fd) ∧
  (∀ fd, r = inl fd → fd = length (files w)).
Proof.
  unfold os_Open. intros H.
  destruct (next_fault w); try (by simplify_eq);
    (destruct (disk w !! p); simplify_eq; cbn; (split; [done|]); (split; [done|]);
     [|done]; split; [|by intros ? [= <-]];
     intros fd Hfd; apply lookup_lt_is_Some in Hfd; by rewrite lookup_app_l).
Qed.

Lemma File_Seek_frame fd off w r w' :
  File_Seek fd off w = (r, w') →
  disk w' = disk w ∧ faults w' = faults w ∧
  ∀ fd', fd' ≠ fd → files w' !! fd' = files w !! fd'.
Proof.
  unfold File_Seek. intros H.
  destruct (files w !! fd) as [f|]; [|by simplify_eq].
  destruct (f_closed f); [by simplify_eq|].
  destruct (next_fault w); try (by simplify_eq);
    (destruct (off <? 0); simplify_eq; cbn; [done|]; (split; [done|]); (split; [done|]);
     intros fd' Hne; by rewrite list_lookup_insert_ne).
Qed.

Lemma File_Read_frame fd len w r w' :
  File_Read fd len w = (r, w') →
  disk w' = disk w ∧ faults w' = faults w ∧
  ∀ fd', fd' ≠ fd → files w' !! fd' = files w !! fd'.
Proof.
  unfold File_Read. intros H.
  destruct (files w !! fd) as [f|]; [|by simplify_eq].
  destruct (f_closed f); [by simplify_eq|].
  destruct (len <=? 0); [by simplify_eq|].
  destruct (next_fault w); try (by simplify_eq);
    (destruct (_ <=? 0); simplify_eq; cbn; [done|]; (split; [done|]); (split; [done|]);
     intros fd' Hne; by rewrite list_lookup_insert_ne).
Qed.

Lemma File_Close_frame fp w r w' :
  File_Close fp w = (r, w') →
  disk w' = disk w ∧ faults w' = faults w ∧
  ∀ fd', fp ≠ Some fd' → files w' !! fd' = files w !! fd'.
Proof.
  unfold File_Close. intros H.
  destruct fp as [fd|]; [|by simplify_eq].
  destruct (files w !! fd) as [f|]; [|by simplify_eq].
  destruct (f_closed f); [by simplify_eq|].
  destruct (next_fault w); simplify_eq; cbn; (split; [done|]); (split; [done|]);
    intros fd' Hne; rewrite list_lookup_insert_ne; congruence.
Qed.

Lemma read_and_release_frame d l len w r d' w' :
  read_and_release d l len w = (r, d', w') →
  disk w' = disk w ∧ faults w' = faults w ∧
  (∀ fd', fd' ≠ lr_R l → file d ≠ Some fd' → files w' !! fd' = files w !! fd') ∧
  file d' = file d ∧ path d' = path d ∧ start d' = start d ∧ size d' = size d ∧
  ∃ l1, reader d' = Some l1 ∧ lr_R l1 = lr_R l.
Proof.
  unfold read_and_release, LimitedReader_Read. intros H.
  assert (∃ r1 l1 w1,
    (if lr_N l <=? 0 then ([], Some io_EOF, l, w)
     else let '(bs, err, w1) :=
            File_Read (lr_R l) (if lr_N l <? len then lr_N l else len) w in
          (bs, err, mkLimited (lr_R l) (lr_N l - Z.of_nat (length bs)), w1))
    = (r1, l1, w1) ∧ lr_R l1 = lr_R l ∧ disk w1 = disk w ∧ faults w1 = faults w ∧
    ∀ fd', fd' ≠ lr_R l → files w1 !! fd' = files w !! fd')
    as (r1 & l1 & w1 & E & HR & Hd1 & Hf1 & Hfr1).
  { destruct (lr_N l <=? 0); [by eexists _, _, _|].
    destruct (File_Read _ _ w) as [[bs err] w1] eqn:E.
    apply File_Read_frame in E as (? & ? & ?). by eexists _, _, _. }
  rewrite E in H. destruct r1 as [bs err].
  destruct (errors_Is_EOF err).
  - destruct (File_Close (file d) w1) as [cerr w2] eqn:C.
    apply File_Close_frame in C as (Hd2 & Hf2 & Hfr2).
    assert (d' = mkDeferred (path d) (file d) (Some l1) (start d) (size d) ∧ w' = w2)
      as [-> ->] by (destruct (negb _); by simplify_eq).
    cbn. split; [congruence|]. split; [congruence|]. split; [|eauto 10].
    intros fd' Hne1 Hne2. rewrite Hfr2 by done. by apply Hfr1.
  - simplify_eq. cbn. repeat (split; [done|]).
    split; [intros; by apply Hfr1|]. repeat (split; [done|]). by exists l1.
Qed.

(** One call on a coherent reader: the reader stays coherent, keeps its
    path and range, and the world keeps its disk, its system and every
    file that the reader does not hold. *)
Lemma Read_keeps d len w :
  coherent d →
  let '(_, d', w') := Read d len w in
  coherent d' ∧ disk w' = disk w ∧ faults w' = faults w ∧
  path d' = path d ∧ start d' = start d ∧ size d' = size d ∧
  ∀ fd', file d ≠ Some fd' → is_Some (files w !! fd') →
    file d' ≠ Some fd' ∧ files w' !! fd' = files w !! fd'.
Proof.
  intros Hco. unfold Read, open_on_demand.
  destruct (reader d) as [l|] eqn:Hr.
  - destruct (read_and_release d l len w) as [[r d'] w'] eqn:E.
    apply read_and_release_frame in E
      as (Hd & Hf & Hfr & Hfile & Hp & Hs & Hz & l1 & Hr1 & HR1).
    pose proof (Hco l Hr) as Hfl.
    split; [intros l' Hl'; congruence|]. do 5 (split; [done|]).
    intros fd' Hne Hfd. split; [congruence|]. apply Hfr; congruence.
  - destruct (os_Open (path d) w) as [[fd|err] w1] eqn:O;
      apply os_Open_frame in O as (Hd1 & Hf1 & Hfr1 & Hnew).
    + specialize (Hnew fd eq_refl). subst fd.
      destruct (File_Seek _ (start d) w1) as [[serr|] w2] eqn:S;
        apply File_Seek_frame in S as (Hd2 & Hf2 & Hfr2).
      * cbn. split; [done|]. split; [congruence|]. split; [congruence|].
        do 3 (split; [done|]).
        intros fd' Hne Hfd. split; [done|].
        rewrite Hfr2; [by apply Hfr1|]. apply lookup_lt_is_Some in Hfd. lia.
      * destruct (read_and_release _ _ len w2) as [[r d'] w'] eqn:E.
        apply read_and_release_frame in E
          as (Hd & Hf & Hfr & Hfile & Hp & Hs & Hz & l1 & Hr1 & HR1).
        cbn in *.
        split; [intros l' Hl'; congruence|].
        split; [congruence|]. split; [congruence|]. do 3 (split; [done|]).
        intros fd' Hne Hfd.
        assert (fd' ≠ length (files w)) as Hfresh.
        { apply lookup_lt_is_Some in Hfd. lia. }
        split; [congruence|].
        rewrite Hfr by congruence. rewrite Hfr2 by done. by apply Hfr1.
    + cbn. split; [done|]. do 5 (split; [done|]).
      intros fd' Hne Hfd. split; [done|]. by apply Hfr1.
Qed.

Lemma Close_keeps d w :
  coherent d →
  let '(_, d', w') := Close d w in
  coherent d' ∧ disk w' = disk w ∧ faults w' = faults w ∧
  path d' = path d ∧ start d' = start d ∧ size d' = size d ∧
  file d' = None ∧ reader d' = None ∧
  ∀ fd', file d ≠ Some fd' → files w' !! fd' = files w !! fd'.
Proof.
  intros Hco. unfold Close. destruct (file d) as [f|] eqn:Hf.
  - destruct (File_Close (Some f) w) as [err w1] eqn:C.
    apply File_Close_frame in C as (Hd & Hfa & Hfr). cbn.
    split; [by intros l|]. do 7 (split; [done|]).
    intros fd' Hne. by apply Hfr.
  - assert (reader d = None) as Hr.
    { destruct (reader d) as [l|] eqn:Hr; [|done]. specialize (Hco l Hr). congruence. }
    cbn. split; [done|]. done.
Qed.

Lemma history_keeps cs d w :
  coherent d →
  let '(d', w') := history cs d w in
  coherent d' ∧ disk w' = disk w ∧ faults w' = faults w ∧
  path d' = path d ∧ start d' = start d ∧ size d' = size d ∧
  ∀ fd', file d ≠ Some fd' → is_Some (files w !! fd') →
    file d' ≠ Some fd' ∧ files w' !! fd' = files w !! fd'.
Proof.
  revert d w. induction cs as [|c cs IH]; intros d w Hco.
  { cbn. do 6 (split; [done|]). done. }
  rewrite history_cons.
  assert (let '(d1, w1) := do_call c d w in
    coherent d1 ∧ disk w1 = disk w ∧ faults w1 = faults w ∧
    path d1 = path d ∧ start d1 = start d ∧ size d1 = size d ∧
    ∀ fd', file d ≠ Some fd' → is_Some (files w !! fd') →
      file d1 ≠ Some fd' ∧ files w1 !! fd' = files w !! fd') as Hstep.
  { destruct c as [len|]; cbn [do_call].
    - pose proof (Read_keeps d len w Hco) as H.
      by destruct (Read d len w) as [[r d1] w1].
    - pose proof (Close_keeps d w Hco) as H.
      destruct (Close d w) as [[r d1] w1].
      destruct H as (? & ? & ? & ? & ? & ? & Hnone & _ & Hfr).
      do 6 (split; [done|]). intros fd' Hne Hfd. split; [congruence|by apply Hfr]. }
  destruct (do_call c d w) as [d1 w1]. cbn [fst snd].
  destruct Hstep as (Hco1 & Hd1 & Hf1 & Hp1 & Hs1 & Hz1 & Hfr1).
  specialize (IH d1 w1 Hco1). destruct (history cs d1 w1) as [d' w'].
  destruct IH as (Hco' & Hd' & Hf' & Hp' & Hs' & Hz' & Hfr').
  split; [done|]. split; [congruence|]. split; [congruence|].
  split; [congruence|]. split; [congruence|]. split; [congruence|].
  intros fd' Hne Hfd. destruct (Hfr1 fd' Hne Hfd) as [Hne1 Heq1].
  destruct (Hfr' fd' Hne1) as [Hne' Heq']; [by rewrite Heq1|].
  split; [done|congruence].
Qed.

(** X5. A reader touches no file but its own: whatever is read or
    closed, a file of the system table that the reader does not hold stays
    exactly as it was, offset and open state included, and the reader never
    comes to hold it. *)
Theorem reader_touches_no_file_but_its_own
    (d : deferredPartialReadCloser) (cs : list call) (w : World)
    (fd : nat) (f : osFile) :
  coherent d → file d ≠ Some fd → files w !! fd = Some f →
  files (history cs d w).2 !! fd = Some f ∧
  file (history cs d w).1 ≠ Some fd.
Proof.
  intros Hco Hne Hf. pose proof (history_keeps cs d w Hco) as H.
  destruct (history cs d w) as [d' w']. cbn.
  destruct H as (_ & _ & _ & _ & _ & _ & Hfr).
  destruct (Hfr fd Hne) as [? ?]; [by eexists|]. split; [congruence|done].
Qed.

Lemma reader_touches_no_file_but_its_own_witness :
  files (history [CallRead 2; CallClose] Fixtures.inner_reader Fixtures.world_at_end).2
    !! 0%nat = Some (mkFile "layer.tar" Fixtures.five_bytes 5 false) ∧
  file (history [CallRead 2; CallClose] Fixtures.inner_reader Fixtures.world_at_end).1
    ≠ Some 0%nat.
Proof.
  apply (reader_touches_no_file_but_its_own Fixtures.inner_reader
           [CallRead 2; CallClose] Fixtures.world_at_end 0%nat).
  - intros l Hl. simpl in Hl. discriminate.
  - simpl. discriminate.
  - reflexivity.
Defined.




(** *** Failures of the first block *)

Lemma Read_missing_path p s z len w :
  disk w !! p = None →
  ∃ e, Read (newDeferredPartialReadCloser p s z) len w
       = (([], Some (PathError "open" p e)), newDeferredPartialReadCloser p s z,
          emit (EvOpen p) w) ∧
       (next_fault w ≠ IOError → e = ENOENT).
Proof.
  intros Hdisk. unfold Read, open_on_demand, os_Open. cbn. rewrite Hdisk.
  destruct (next_fault w); eexists; split; done.
Qed.

(** X8. For a path that does not exist every [Read] fails with the error
    of the open and installs nothing: the reader stays as constructed, no
    file is added to the system table, and each call tries the open
    again. *)
Theorem reads_of_a_missing_path_fail_and_retry
    (p : string) (s z : Z) (bufs : list Z) (w : World) :
  disk w !! p = None →
  let d := newDeferredPartialReadCloser p s z in
  let '(rs, d', w') := reads bufs d w in
  Forall (λ r, ∃ e, r = ([], Some (PathError "open" p e))) rs ∧
  (no_io_error w → Forall (λ r, r = ([], Some (PathError "open" p ENOENT))) rs) ∧
  d' = d ∧ files w' = files w ∧
  log w' = log w ++ replicate (length bufs) (EvOpen p).
Proof.
  intros Hdisk d. subst d. revert w Hdisk.
  induction bufs as [|len bufs IH]; intros w Hdisk.
  { cbn. by rewrite app_nil_r. }
  cbn [reads].
  destruct (Read_missing_path p s z len w Hdisk) as (e & -> & He).
  specialize (IH (emit (EvOpen p) w) Hdisk).
  destruct (reads bufs _ (emit (EvOpen p) w)) as [[rs d'] w'].
  destruct IH as (Hall & Hno & -> & Hfiles & Hlog).
  split; [constructor; [by eexists|done]|].
  split; [|split; [done|split; [done|]]].
  - intros Hio. constructor; [by rewrite He by apply Hio|]. apply Hno.
    intros i. apply Hio.
  - rewrite Hlog. cbn. by rewrite <- app_assoc.
Qed.

Lemma reads_of_a_missing_path_fail_and_retry_witness :
  let '(rs, d', w') :=
    reads [2; 2] (newDeferredPartialReadCloser "gone.tar" 1 3) Fixtures.calm_world in
  Forall (λ r, ∃ e, r = ([], Some (PathError "open" "gone.tar" e))) rs ∧
  (no_io_error Fixtures.calm_world →
   Forall (λ r, r = ([], Some (PathError "open" "gone.tar" ENOENT))) rs) ∧
  d' = newDeferredPartialReadCloser "gone.tar" 1 3 ∧
  files w' = files Fixtures.calm_world ∧
  log w' = log Fixtures.calm_world ++ replicate 2 (EvOpen "gone.tar").
Proof.
  apply (reads_of_a_missing_path_fail_and_retry "gone.tar" 1 3 [2; 2]
           Fixtures.calm_world).
  reflexivity.
Defined.

Lemma Read_negative_start p s z len w data :
  s < 0 → disk w !! p = Some data → no_io_error w →
  Read (newDeferredPartialReadCloser p s z) len w
    = (([], Some (PathError "seek" p EINVAL)), newDeferredPartialReadCloser p s z,
       mkWorld (disk w) (files w ++ [mkFile p data 0 false])
               (log w ++ [EvOpen p; EvSeek (length (files w)) s]) (faults w)).
Proof.
  intros Hs Hdisk Hio. unfold Read, open_on_demand, os_Open. cbn. rewrite Hdisk.
  pose proof (Hio (length (log w))) as Hft. unfold next_fault.
  assert (∀ A (x y : A), match faults w (length (log w)) with
                         | IOError => x | _ => y end = y) as ->.
  { intros. by destruct (faults w _). }
  unfold File_Seek. cbn. rewrite lookup_app_r, Nat.sub_diag by done. cbn.
  unfold next_fault. cbn.
  pose proof (Hio (length (log w ++ [EvOpen p]))) as Hft2.
  assert ((s <? 0) = true) as -> by (by apply Z.ltb_lt).
  destruct (faults w (length (log w ++ [EvOpen p]))); [| done |];
    unfold emit; cbn; by rewrite <- app_assoc.
Qed.

(** X6. A seek that fails leaves the opened file behind: with a negative
    start, every [Read] opens the path, fails the seek with [EINVAL] and
    returns without storing the file, so the reader stays as constructed,
    each call adds one more open file to the system table, and [Close]
    returns nil and closes none of them. *)
Theorem failed_seek_leaves_the_file_open
    (p : string) (s z : Z) (data : list byte) (bufs : list Z) (w : World) :
  s < 0 → disk w !! p = Some data → no_io_error w →
  let d := newDeferredPartialReadCloser p s z in
  let '(rs, d', w') := reads bufs d w in
  rs = replicate (length bufs) ([], Some (PathError "seek" p EINVAL)) ∧
  d' = d ∧
  files w' = files w ++ replicate (length bufs) (mkFile p data 0 false) ∧
  Close d' w' = (None, d', w').
Proof.
  intros Hs Hdisk Hio d. subst d. revert w Hdisk Hio.
  induction bufs as [|len bufs IH]; intros w Hdisk Hio.
  { cbn. by rewrite app_nil_r. }
  cbn [reads]. rewrite (Read_negative_start p s z len w data Hs Hdisk Hio).
  set (w1 := mkWorld _ _ _ _).
  specialize (IH w1 Hdisk Hio). destruct (reads bufs _ w1) as [[rs d'] w'].
  destruct IH as (-> & -> & Hfiles & Hclose).
  split; [done|]. split; [done|]. split; [|done].
  rewrite Hfiles. subst w1. cbn. by rewrite <- app_assoc.
Qed.

Lemma failed_seek_leaves_the_file_open_witness :
  let '(rs, d', w') :=
    reads [2; 2] (newDeferredPartialReadCloser "layer.tar" (-1) 3) Fixtures.calm_world in
  rs = replicate 2 ([], Some (PathError "seek" "layer.tar" EINVAL)) ∧
  d' = newDeferredPartialReadCloser "layer.tar" (-1) 3 ∧
  files w' = files Fixtures.calm_world
             ++ replicate 2 (mkFile "layer.tar" Fixtures.five_bytes 0 false) ∧
  Close d' w' = (None, d', w').
Proof.
  apply (failed_seek_leaves_the_file_open "layer.tar" (-1) 3 Fixtures.five_bytes
           [2; 2] Fixtures.calm_world).
  - lia.
  - reflexivity.
  - intros i. simpl. discriminate.
Defined.

(** *** A range without bytes *)




(** *** No descriptor is left behind *)







End ReaderContents.

(** ** The content helpers and the lookup *)
Section ContentLookups.
Import GoRuntime FilePkg ImagePkg.

Lemma lookup_cases ft p :
  (∃ e, fails_with ft p e) ∨ (∃ r, resolves ft p r) ∨ nil_reference ft p.
Proof.
  unfold fails_with, resolves, nil_reference.
  destruct (File ft p FollowBasenameLinks) as [[ex r] [e|]].
  - left. exists e. left. by exists ex, r.
  - destruct r as [r|].
    + right. left. exists r. by exists ex.
    + destruct ex.
      * by right; right.
      * left. eexists. right. done.
Qed.

(** X10. [fetchFileContentsByPath] asks the catalog exactly when the
    lookup answers a reference without error, also when the lookup says
    that the path does not exist: it then asks once, for that reference,
    and returns what the catalog answers, the reader or the error.  In
    every other case the catalog is not asked. *)
Theorem fetchFileContentsByPath_cases
    (ft : FileTree) (fileCatalog : gmap Reference Locator) (path : string) :
  (∀ ref, resolves ft path ref →
     fetchFileContentsByPath ft fileCatalog path
       = (catalog_answer (FileContents fileCatalog ref), [AskFileContents ref])) ∧
  (∀ ref, (fetchFileContentsByPath ft fileCatalog path).2 = [AskFileContents ref]
     ↔ resolves ft path ref) ∧
  ((fetchFileContentsByPath ft fileCatalog path).2 = []
     ↔ ¬ ∃ ref, resolves ft path ref).
Proof.
  assert (∀ ref, resolves ft path ref →
     fetchFileContentsByPath ft fileCatalog path
       = (catalog_answer (FileContents fileCatalog ref), [AskFileContents ref])) as Hres.
  { intros ref [ex H]. unfold fetchFileContentsByPath. rewrite H.
    rewrite andb_false_r. by destruct (FileContents fileCatalog ref). }
  assert (nil_reference ft path →
     fetchFileContentsByPath ft fileCatalog path = (Panic, [])) as Hnil.
  { intros H. unfold fetchFileContentsByPath. by rewrite H. }
  assert (∀ e, fails_with ft path e →
     fetchFileContentsByPath ft fileCatalog path = (Err e, [])) as Hfail.
  { unfold fetchFileContentsByPath. intros e [(ex & r & ->)|[-> ->]]; done. }
  split; [done|]. split.
  - intros ref. split; [|by intros H; rewrite (Hres ref H)].
    destruct (lookup_cases ft path) as [[e H]|[[r H]|H]].
    + by rewrite (Hfail e H).
    + rewrite (Hres r H). by intros [= <-].
    + by rewrite (Hnil H).
  - split.
    + intros Hemp [ref H]. by rewrite (Hres ref H) in Hemp.
    + intros Hno. destruct (lookup_cases ft path) as [[e H]|[[r H]|H]].
      * by rewrite (Hfail e H).
      * destruct Hno. by exists r.
      * by rewrite (Hnil H).
Qed.

Lemma fetchFileContentsByPath_cases_witness :
  fetchFileContentsByPath Fixtures.small_tree Fixtures.catalog_a "/a"
    = (catalog_answer (FileContents Fixtures.catalog_a Fixtures.ref_a),
       [AskFileContents Fixtures.ref_a]) ∧
  (fetchFileContentsByPath Fixtures.small_tree Fixtures.catalog_a "/missing").2 = [].
Proof.
  split.
  - destruct (fetchFileContentsByPath_cases
                Fixtures.small_tree Fixtures.catalog_a "/a") as (H & _ & _).
    apply (H Fixtures.ref_a). exists true. reflexivity.
  - destruct (fetchFileContentsByPath_cases
                Fixtures.small_tree Fixtures.catalog_a "/missing") as (_ & _ & H).
    apply H. intros [ref [ex Href]]. vm_compute in Href. discriminate.
Defined.

Lemma resolve_paths_Ok ft paths refs :
  resolve_paths ft paths = Ok refs ↔ Forall2 (resolves ft) paths refs.
Proof.
  split; [|apply resolve_paths_all].
  revert refs. induction paths as [|p paths IH]; intros refs; cbn.
  { intros [= <-]. constructor. }
  destruct (File ft p FollowBasenameLinks) as [[ex r] [e|]] eqn:Hp; [done|].
  destruct r as [r|].
  - rewrite andb_false_r.
    destruct (resolve_paths ft paths) as [rs| |]; [|done|done].
    intros [= <-]. constructor; [by exists ex|]. by apply IH.
  - by destruct ex.
Qed.

Lemma resolve_paths_nil_reference ft pre p post rpre :
  Forall2 (resolves ft) pre rpre → nil_reference ft p →
  resolve_paths ft (pre ++ p :: post) = Panic.
Proof.
  intros Hpre Hp. induction Hpre as [|q r pre refs [ex Hq] _ IH]; cbn.
  - by rewrite Hp.
  - rewrite Hq, IH. by rewrite andb_false_r.
Qed.

(** X11. [fetchMultipleFileContentsByPath] asks the catalog exactly when
    every path resolves: it then asks once, with the references in the
    order of the paths, one for each path (a path given twice is asked
    twice), and returns what the catalog answers.  When some path does not
    resolve the catalog is not asked. *)
Theorem fetchMultipleFileContentsByPath_asks_iff_all_resolve
    (ft : FileTree) (fileCatalog : gmap Reference Locator)
    (paths : list string) (refs : list Reference) :
  ((fetchMultipleFileContentsByPath ft fileCatalog paths).2
     = [AskMultipleFileContents refs]
   ↔ Forall2 (resolves ft) paths refs) ∧
  (Forall2 (resolves ft) paths refs →
     fetchMultipleFileContentsByPath ft fileCatalog paths
       = (catalog_answer (MultipleFileContents fileCatalog refs),
          [AskMultipleFileContents refs]) ∧
     length refs = length paths) ∧
  ((fetchMultipleFileContentsByPath ft fileCatalog paths).2 = []
   ↔ ¬ ∃ refs', Forall2 (resolves ft) paths refs').
Proof.
  assert (∀ rs, Forall2 (resolves ft) paths rs →
     fetchMultipleFileContentsByPath ft fileCatalog paths
       = (catalog_answer (MultipleFileContents fileCatalog rs),
          [AskMultipleFileContents rs])) as Hall.
  { intros rs H. unfold fetchMultipleFileContentsByPath.
    rewrite (resolve_paths_all _ _ _ H).
    by destruct (MultipleFileContents fileCatalog rs). }
  split; [|split].
  - split; [|by intros H; rewrite (Hall refs H)].
    unfold fetchMultipleFileContentsByPath.
    destruct (resolve_paths ft paths) as [rs| |] eqn:E; [|done|done].
    apply resolve_paths_Ok in E.
    destruct (MultipleFileContents fileCatalog rs); by intros [= <-].
  - intros H. split; [by apply Hall|]. symmetry. by eapply Forall2_length.
  - split.
    + intros Hemp [rs H]. by rewrite (Hall rs H) in Hemp.
    + intros Hno. unfold fetchMultipleFileContentsByPath.
      destruct (resolve_paths ft paths) as [rs| |] eqn:E; [|done|done].
      apply resolve_paths_Ok in E. destruct Hno. by exists rs.
Qed.

Lemma fetchMultipleFileContentsByPath_asks_iff_all_resolve_witness :
  (fetchMultipleFileContentsByPath Fixtures.small_tree Fixtures.catalog_a ["/a"; "/b"]).2
    = [AskMultipleFileContents [Fixtures.ref_a; Fixtures.ref_b]].
Proof.
  destruct (fetchMultipleFileContentsByPath_asks_iff_all_resolve
              Fixtures.small_tree Fixtures.catalog_a ["/a"; "/b"]
              [Fixtures.ref_a; Fixtures.ref_b]) as (H & _ & _).
  apply H. repeat constructor; exists true; reflexivity.
Defined.

(** X12. A lookup that reports an existing file without a reference
    passes the not-found test, which asks for both, and the helpers then
    dereference the nil reference: [fetchFileContentsByPath] panics, and so
    does [fetchMultipleFileContentsByPath] at the first such path when the
    paths before it resolve; the catalog is not asked. *)
Theorem fetchMultipleFileContentsByPath_nil_reference_panics
    (ft : FileTree) (fileCatalog : gmap Reference Locator)
    (pre post : list string) (p : string) (rpre : list Reference) :
  Forall2 (resolves ft) pre rpre → nil_reference ft p →
  fetchMultipleFileContentsByPath ft fileCatalog (pre ++ p :: post) = (Panic, []) ∧
  fetchFileContentsByPath ft fileCatalog p = (Panic, []).
Proof.
  intros Hpre Hp. split.
  - unfold fetchMultipleFileContentsByPath.
    by rewrite (resolve_paths_nil_reference ft pre p post rpre Hpre Hp).
  - unfold fetchFileContentsByPath. by rewrite Hp.
Qed.

Lemma fetchMultipleFileContentsByPath_nil_reference_panics_witness :
  fetchMultipleFileContentsByPath Fixtures.odd_tree Fixtures.catalog_ab ["/a"; "/odd"; "/b"]
    = (Panic, []) ∧
  fetchFileContentsByPath Fixtures.odd_tree Fixtures.catalog_ab "/odd" = (Panic, []).
Proof.
  apply (fetchMultipleFileContentsByPath_nil_reference_panics
           Fixtures.odd_tree Fixtures.catalog_ab ["/a"] ["/b"] "/odd" [Fixtures.ref_a]).
  - repeat constructor. exists true. reflexivity.
  - reflexivity.
Defined.

(** X13. The contents of a path read back: when the path resolves to a
    reference that the catalog (modelled from the spec) maps to a locator
    whose range lies within its archive, [fetchFileContentsByPath] returns
    a reader, and reading it to the end, as the integration test does,
    yields exactly the bytes of that range and a nil error, with the
    archive closed again. *)
Theorem fetched_contents_read_back
    (ft : FileTree) (fileCatalog : gmap Reference Locator) (path : string)
    (ref : Reference) (loc : Locator) (data : list byte) (bufs : list Z) (w : World) :
  resolves ft path ref → fileCatalog !! ref = Some loc →
  0 ≤ offset loc → 0 ≤ length_ loc →
  offset loc + length_ loc ≤ Z.of_nat (length data) →
  disk w !! archive loc = Some data → no_io_error w →
  Forall (λ b, 0 < b) bufs → length_ loc + 2 ≤ Z.of_nat (length bufs) →
  ∃ rd d' w',
    fetchFileContentsByPath ft fileCatalog path = (Ok rd, [AskFileContents ref]) ∧
    ReadAll bufs rd w
      = (Some (take (Z.to_nat (length_ loc)) (drop (Z.to_nat (offset loc)) data), None),
         d', w') ∧
    released d' w'.
Proof.
  intros [ex Hp] Hloc Hs Hz Hfit Hdisk Hio Hbufs Hn.
  destruct (ReadAll_fresh (archive loc) (offset loc) (length_ loc) data bufs w
              Hs Hz Hdisk Hio Hbufs) as (err & d' & w' & HA & He & Hrel); [lia|].
  unfold end_of_range in He. cbn [size start newDeferredPartialReadCloser] in He.
  rewrite decide_True in He by lia. subst err.
  exists (lazy_reader loc), d', w'. split; [|split; [|done]].
  - unfold fetchFileContentsByPath, FileContents. rewrite Hp, Hloc.
    by rewrite andb_false_r.
  - unfold lazy_reader. rewrite HA. do 3 f_equal.
    unfold range_bytes, in_range. cbn [size start newDeferredPartialReadCloser].
    by rewrite Z.min_l by lia.
Qed.

Lemma fetched_contents_read_back_witness :
  ∃ rd d' w',
    fetchFileContentsByPath Fixtures.small_tree Fixtures.catalog_a "/a"
      = (Ok rd, [AskFileContents Fixtures.ref_a]) ∧
    ReadAll [2; 2; 2; 2; 2] rd Fixtures.calm_world
      = (Some ([x02; x03; x04], None), d', w') ∧
    released d' w'.
Proof.
  apply (fetched_contents_read_back Fixtures.small_tree Fixtures.catalog_a "/a"
           Fixtures.ref_a (mkLocator "layer.tar" 1 3) Fixtures.five_bytes
           [2; 2; 2; 2; 2] Fixtures.calm_world).
  - exists true. reflexivity.
  - reflexivity.
  - simpl. lia.
  - simpl. lia.
  - simpl. lia.
  - reflexivity.
  - intros i. simpl. discriminate.
  - repeat constructor.
  - simpl. lia.
Defined.

End ContentLookups.
